(** * AccessorsTransform: a shallow embedding of
      [src/Transforms/AccessorsTransform.cpp]

    The transform walks the declarations of a translation unit, records the
    configured member fields in [fieldRanges], scans the body of every
    function named [main] for usages of those fields and queues text edits
    on the rewriter; afterwards [replace] queues one block of accessor
    definitions per recorded field.

    What is modelled and how:
    - the clang AST is an inductive type with the node classes the code
      tells apart ([BinaryOperator], [UnaryOperator], [MemberExpr], other
      expressions, [DeclStmt], [CompoundStmt], other statements); every
      node carries its source range and the text [printPretty] renders for
      it, both supplied by the AST layer;
    - [ParentMap] is the chain of parents of the visited node, nearest
      first: [PM.getParent] is only ever asked for the visited node and
      its ancestors;
    - the rewriter is the append-only queue of the calls made on it;
    - [fieldRanges], a [std::map<string, FieldDecl*>], is an association
      list kept in key order, which is the order its iterators follow;
    - a step the C++ leaves undefined ([isa<>] on a null parent, reading
      through [method_end()]) yields [None].
    The diagnostic output on [llvm::errs()] is not part of the state. *)

From Stdlib Require Import String Ascii List Bool Arith Lia Sorted OrderedTypeEx.
Import ListNotations.
Local Open Scope list_scope.
Local Open Scope string_scope.
Set Warnings "-register-all".

(** ** The error monad of the embedding *)

Definition bind {A B : Type} (m : option A) (k : A -> option B) : option B :=
  match m with
  | Some a => k a
  | None => None
  end.

Notation "x <- m ;; k" := (bind m (fun x => k))
  (at level 100, m at next level, right associativity).

(** ** The part of the clang AST the transform looks at *)

Module Clang.

Definition SourceLocation := nat.

Record SourceRange := mkRange {
  getBegin : SourceLocation;
  getEnd : SourceLocation
}.

(** A method of a record, as [replace] sees it. *)
Record CXXMethodDecl := mkMethod {
  isUserProvided : bool;
  getSourceRange : SourceRange
}.

(** A record, as [replace] sees it through [FieldDecl::getParent]:
    [methods] lists [method_begin() .. method_end()]. *)
Record CXXRecordDecl := mkRecord {
  getRBraceLoc : SourceLocation;
  methods : list CXXMethodDecl
}.

(** A member declaration.  A [FieldDecl*] is the record itself: [address]
    tells two declarations with equal contents apart, so that equality of
    records is equality of pointers.  [typeAsString] stands for
    [getType().getNonReferenceType().getAsString()] and [constTypeAsString]
    for the same with [withConst()]. *)
Record FieldDecl := mkField {
  address : nat;
  getNameAsString : string;
  getQualifiedNameAsString : string;
  typeAsString : string;
  constTypeAsString : string;
  getParent : CXXRecordDecl
}.

Definition SourceRange_eq_dec (a b : SourceRange) : {a = b} + {a <> b}.
Proof. decide equality; apply Nat.eq_dec. Defined.

Definition CXXMethodDecl_eq_dec (a b : CXXMethodDecl) : {a = b} + {a <> b}.
Proof. decide equality; [apply SourceRange_eq_dec | apply bool_dec]. Defined.

Definition CXXRecordDecl_eq_dec (a b : CXXRecordDecl) : {a = b} + {a <> b}.
Proof.
  decide equality; [apply (list_eq_dec CXXMethodDecl_eq_dec) | apply Nat.eq_dec].
Defined.

Definition FieldDecl_eq_dec (a b : FieldDecl) : {a = b} + {a <> b}.
Proof.
  decide equality;
    try apply string_dec; try apply Nat.eq_dec; apply CXXRecordDecl_eq_dec.
Defined.

(** [clang::BinaryOperatorKind], all of it. *)
Inductive BinaryOperatorKind :=
| BO_PtrMemD | BO_PtrMemI
| BO_Mul | BO_Div | BO_Rem
| BO_Add | BO_Sub
| BO_Shl | BO_Shr
| BO_LT | BO_GT | BO_LE | BO_GE
| BO_EQ | BO_NE
| BO_And | BO_Xor | BO_Or
| BO_LAnd | BO_LOr
| BO_Assign
| BO_MulAssign | BO_DivAssign | BO_RemAssign
| BO_AddAssign | BO_SubAssign
| BO_ShlAssign | BO_ShrAssign
| BO_AndAssign | BO_XorAssign | BO_OrAssign
| BO_Comma.

Definition isCompoundAssignmentOp (opc : BinaryOperatorKind) : bool :=
  match opc with
  | BO_MulAssign | BO_DivAssign | BO_RemAssign | BO_AddAssign | BO_SubAssign
  | BO_ShlAssign | BO_ShrAssign | BO_AndAssign | BO_XorAssign | BO_OrAssign => true
  | _ => false
  end.

Definition isAssign (opc : BinaryOperatorKind) : bool :=
  match opc with
  | BO_Assign => true
  | _ => false
  end.

(** On the compound assignments this is the operator without its [=];
    clang asserts the argument is one, elsewhere the value is unused. *)
Definition getOpForCompoundAssignment (opc : BinaryOperatorKind) : BinaryOperatorKind :=
  match opc with
  | BO_MulAssign => BO_Mul
  | BO_DivAssign => BO_Div
  | BO_RemAssign => BO_Rem
  | BO_AddAssign => BO_Add
  | BO_SubAssign => BO_Sub
  | BO_ShlAssign => BO_Shl
  | BO_ShrAssign => BO_Shr
  | BO_AndAssign => BO_And
  | BO_XorAssign => BO_Xor
  | BO_OrAssign => BO_Or
  | other => other
  end.

Definition getOpcodeStr (opc : BinaryOperatorKind) : string :=
  match opc with
  | BO_PtrMemD => ".*" | BO_PtrMemI => "->*"
  | BO_Mul => "*" | BO_Div => "/" | BO_Rem => "%"
  | BO_Add => "+" | BO_Sub => "-"
  | BO_Shl => "<<" | BO_Shr => ">>"
  | BO_LT => "<" | BO_GT => ">" | BO_LE => "<=" | BO_GE => ">="
  | BO_EQ => "==" | BO_NE => "!="
  | BO_And => "&" | BO_Xor => "^" | BO_Or => "|"
  | BO_LAnd => "&&" | BO_LOr => "||"
  | BO_Assign => "="
  | BO_MulAssign => "*=" | BO_DivAssign => "/=" | BO_RemAssign => "%="
  | BO_AddAssign => "+=" | BO_SubAssign => "-="
  | BO_ShlAssign => "<<=" | BO_ShrAssign => ">>="
  | BO_AndAssign => "&=" | BO_XorAssign => "^=" | BO_OrAssign => "|="
  | BO_Comma => ","
  end.

(** [clang::UnaryOperatorKind], all of it. *)
Inductive UnaryOperatorKind :=
| UO_PostInc | UO_PostDec | UO_PreInc | UO_PreDec
| UO_AddrOf | UO_Deref
| UO_Plus | UO_Minus | UO_Not | UO_LNot
| UO_Real | UO_Imag | UO_Extension.

Definition isPrefix (opc : UnaryOperatorKind) : bool :=
  match opc with
  | UO_PreInc | UO_PreDec => true
  | _ => false
  end.

Definition isPostfix (opc : UnaryOperatorKind) : bool :=
  match opc with
  | UO_PostInc | UO_PostDec => true
  | _ => false
  end.

Definition isIncrementOp (opc : UnaryOperatorKind) : bool :=
  match opc with
  | UO_PreInc | UO_PostInc => true
  | _ => false
  end.

Definition isIncrementDecrementOp (opc : UnaryOperatorKind) : bool :=
  match opc with
  | UO_PostInc | UO_PostDec | UO_PreInc | UO_PreDec => true
  | _ => false
  end.

(** What every statement node carries: where it lies in the buffer
    ([getLocEnd] is where its last token starts) and what [printPretty]
    prints for it. *)
Record StmtInfo := mkInfo {
  getRange : SourceRange;
  printPretty : string
}.

(** Statements and expressions.  A child pointer of the generic classes
    may be null. *)
Inductive Stmt :=
| BinaryOperator (i : StmtInfo) (opc : BinaryOperatorKind) (lhs rhs : Stmt)
| UnaryOperator (i : StmtInfo) (opc : UnaryOperatorKind) (subExpr : Stmt)
| MemberExpr (i : StmtInfo) (base : Stmt) (memberDecl : FieldDecl)
| OtherExpr (i : StmtInfo) (children : list (option Stmt))
| DeclStmt (i : StmtInfo) (children : list (option Stmt))
| CompoundStmt (i : StmtInfo) (children : list (option Stmt))
| OtherStmt (i : StmtInfo) (children : list (option Stmt)).

Definition info (s : Stmt) : StmtInfo :=
  match s with
  | BinaryOperator i _ _ _ | UnaryOperator i _ _ | MemberExpr i _ _
  | OtherExpr i _ | DeclStmt i _ | CompoundStmt i _ | OtherStmt i _ => i
  end.

Definition getSourceRangeOf (s : Stmt) : SourceRange := getRange (info s).
Definition getLocStart (s : Stmt) : SourceLocation := getBegin (getSourceRangeOf s).
Definition getLocEnd (s : Stmt) : SourceLocation := getEnd (getSourceRangeOf s).
Definition printPrettyOf (s : Stmt) : string := printPretty (info s).

Definition isa_Expr (s : Stmt) : bool :=
  match s with
  | BinaryOperator _ _ _ _ | UnaryOperator _ _ _ | MemberExpr _ _ _ | OtherExpr _ _ => true
  | _ => false
  end.

Definition isa_DeclStmt (s : Stmt) : bool :=
  match s with
  | DeclStmt _ _ => true
  | _ => false
  end.

Definition isa_CompoundStmt (s : Stmt) : bool :=
  match s with
  | CompoundStmt _ _ => true
  | _ => false
  end.

(** Declarations, by what [collect] asks of them: a [CXXRecordDecl] with
    its fields, a [FunctionDecl] with its name and [getBody()], any other
    declaration context (namespace, linkage specification), and the
    declarations that are none of these.  Records and functions are
    declaration contexts as well. *)
Inductive Decl :=
| RecordD (fields : list FieldDecl) (decls : list Decl)
| FunctionD (name : string) (body : option Stmt) (decls : list Decl)
| ContextD (decls : list Decl)
| OtherD.

End Clang.
Import Clang.

(** ** The rewriter *)

(** Modelled from the spec: the [rewriter] member of the [Transform] base
    class, declared in [Transforms.h], which is not among the sources.  It
    is the edit queue of the specification: a pending edit is an insertion
    before or after a location or the replacement of a range, with its
    text; edits are only appended, oldest first.  The four constructors
    are the four calls the transform makes on it. *)
Inductive Edit :=
| InsertTextBefore (loc : SourceLocation) (text : string)
| InsertTextAfter (loc : SourceLocation) (text : string)
| InsertTextAfterToken (loc : SourceLocation) (text : string)
| ReplaceText (range : SourceRange) (text : string).

Definition Rewriter := list Edit.

Definition queue (rewriter : Rewriter) (e : Edit) : Rewriter := (rewriter ++ [e])%list.

(** ** Strings *)

(** [toupper] of the C locale. *)
Definition toupper (c : ascii) : ascii :=
  let n := nat_of_ascii c in
  if Nat.leb 97 n && Nat.leb n 122 then ascii_of_nat (n - 32) else c.

(** [s[n] = f(s[n])]; past the last character the string is left as it is
    ([s[s.size()]] is the terminator, which [toupper] maps to itself). *)
Fixpoint update_at (n : nat) (f : ascii -> ascii) (s : string) : string :=
  match s, n with
  | EmptyString, _ => EmptyString
  | String c rest, 0 => String (f c) rest
  | String c rest, S m => String c (update_at m f rest)
  end.

(** ** fieldRanges *)

Definition FieldRanges := list (string * FieldDecl).

(** [fieldRanges[key] = value] on a [std::map]: the entry of [key] is
    overwritten, a new key is entered at its place in key order. *)
Fixpoint assign (key : string) (value : FieldDecl) (m : FieldRanges) : FieldRanges :=
  match m with
  | [] => [(key, value)]
  | (k, v) :: rest =>
      match String.compare key k with
      | Eq => (key, value) :: rest
      | Lt => (key, value) :: m
      | Gt => (k, v) :: assign key value rest
      end
  end.

(** [find(fields.begin(), fields.end(), name) != fields.end()] *)
Definition configured (fields : list string) (name : string) : bool :=
  existsb (String.eqb name) fields.

(** ** The transform *)

Module AccessorsTransform.

(** The walk to [top_stmt_within_compound]: from [stmt], whose parents are
    [parents] (nearest first), upward while the parent is an expression or
    a declaration statement.  The result is the statement reached together
    with its own parents.  At the root [PM.getParent] is null and [isa<>]
    is undefined on it. *)
Fixpoint top_stmt_within_compound (stmt : Stmt) (parents : list Stmt)
  : option (Stmt * list Stmt) :=
  match parents with
  | [] => None
  | p :: up =>
      if isa_Expr p || isa_DeclStmt p
      then top_stmt_within_compound p up
      else Some (stmt, parents)
  end.

(** [node == top_stmt_within_compound], for a node with parents [parents]
    and the statement the walk from it reached, with parents [top_parents]:
    the two lie on one path to the root and are the same node exactly when
    they are at the same depth. *)
Definition is_top (parents top_parents : list Stmt) : bool :=
  Nat.eqb (length parents) (length top_parents).

Definition getterName (d : FieldDecl) : string :=
  update_at 3 toupper ("get" ++ getNameAsString d).

Definition setterName (d : FieldDecl) : string :=
  update_at 3 toupper ("set" ++ getNameAsString d).

(** The loop over [fieldRanges] of the three [rewrite] overloads: [body]
    runs once for every entry whose declaration is [d]. *)
Fixpoint for_each_match (fieldRanges : FieldRanges) (d : FieldDecl)
    (body : Rewriter -> option Rewriter) (rewriter : Rewriter) : option Rewriter :=
  match fieldRanges with
  | [] => Some rewriter
  | (_, second) :: rest =>
      if FieldDecl_eq_dec d second
      then rewriter' <- body rewriter ;; for_each_match rest d body rewriter'
      else for_each_match rest d body rewriter
  end.

Section Rewrite.

Variable fieldRanges : FieldRanges.

(** [rewrite(const BinaryOperator*, PM)]; [collect_lhs] and [collect_rhs]
    are [collect(bin_op->getLHS(), PM)] and [collect(bin_op->getRHS(), PM)]. *)
Definition rewrite_BinaryOperator
    (i : StmtInfo) (opc : BinaryOperatorKind) (lhs rhs : Stmt)
    (collect_lhs collect_rhs : Rewriter -> option Rewriter)
    (parents : list Stmt) (rewriter : Rewriter) : option Rewriter :=
  let bin_op := BinaryOperator i opc lhs rhs in
  match lhs with
  | MemberExpr _ base memberDecl =>
      for_each_match fieldRanges memberDecl (fun rewriter =>
        top <- top_stmt_within_compound bin_op parents ;;
        let base_str := printPrettyOf base in
        let getterName := getterName memberDecl in
        let setterName := setterName memberDecl in
        if isCompoundAssignmentOp opc then
          if negb (is_top parents (snd top)) then
            let sstr :=
              base_str ++ "." ++ setterName ++ "( " ++
              base_str ++ "." ++ getterName ++ "() " ++
              getOpcodeStr (getOpForCompoundAssignment opc) ++ " " ++
              printPrettyOf rhs in
            rewriter <- collect_rhs rewriter ;;
            let sstr := sstr ++ " );
" in
            let rewriter := queue rewriter (InsertTextBefore (getLocStart (fst top)) sstr) in
            Some (queue rewriter
                    (ReplaceText (getSourceRangeOf bin_op) (base_str ++ "." ++ getterName ++ "()")))
          else
            let sstr :=
              base_str ++ "." ++ setterName ++ "( " ++
              base_str ++ "." ++ getterName ++ "() " ++
              getOpcodeStr (getOpForCompoundAssignment opc) ++ " " in
            rewriter <- collect_rhs rewriter ;;
            let sstr := sstr ++ printPrettyOf rhs ++ " )" in
            Some (queue rewriter (ReplaceText (getSourceRangeOf bin_op) sstr))
        else if isAssign opc then
          let sstr := base_str ++ "." ++ setterName ++ "( " in
          rewriter <- collect_rhs rewriter ;;
          let sstr := sstr ++ printPrettyOf rhs ++ " )" in
          Some (queue rewriter (ReplaceText (getSourceRangeOf bin_op) sstr))
        else Some rewriter) rewriter
  | _ =>
      rewriter <- collect_lhs rewriter ;;
      collect_rhs rewriter
  end.

(** [rewrite(const UnaryOperator*, PM)]; [collect_sub] is
    [collect(un_op->getSubExpr(), PM)]. *)
Definition rewrite_UnaryOperator
    (i : StmtInfo) (opc : UnaryOperatorKind) (subExpr : Stmt)
    (collect_sub : Rewriter -> option Rewriter)
    (parents : list Stmt) (rewriter : Rewriter) : option Rewriter :=
  let un_op := UnaryOperator i opc subExpr in
  match subExpr with
  | MemberExpr _ base memberDecl =>
      for_each_match fieldRanges memberDecl (fun rewriter =>
        top <- top_stmt_within_compound un_op parents ;;
        let base_str := printPrettyOf base in
        let getterName := getterName memberDecl in
        let setterName := setterName memberDecl in
        if negb (isIncrementDecrementOp opc) then collect_sub rewriter
        else
          needToInsertBraces <-
            match snd top with
            | [] => None
            | p :: _ => Some (negb (isa_CompoundStmt p) && negb (is_top parents (snd top)))
            end ;;
          let rewriter :=
            if needToInsertBraces : bool
            then queue rewriter (InsertTextBefore (getLocStart (fst top)) "{
")
            else rewriter in
          let sstr :=
            base_str ++ "." ++ setterName ++ "( " ++
            base_str ++ "." ++ getterName ++ "() " ++
            (if isIncrementOp opc then "+" else "-") ++ " 1)" in
          let rewriter :=
            if is_top parents (snd top)
            then queue rewriter (ReplaceText (getSourceRangeOf un_op) sstr)
            else if isPrefix opc
            then queue rewriter (InsertTextBefore (getLocStart (fst top)) (sstr ++ ";
"))
            else queue rewriter (InsertTextAfter (getLocEnd (fst top)) (";
" ++ sstr)) in
          Some (if needToInsertBraces
                then queue rewriter (InsertTextAfter (getLocStart (fst top)) "}
")
                else rewriter)) rewriter
  | _ => collect_sub rewriter
  end.

(** [rewrite(const MemberExpr*, PM)] *)
Definition rewrite_MemberExpr
    (i : StmtInfo) (base : Stmt) (memberDecl : FieldDecl)
    (parents : list Stmt) (rewriter : Rewriter) : option Rewriter :=
  let mem_expr := MemberExpr i base memberDecl in
  for_each_match fieldRanges memberDecl (fun rewriter =>
    top <- top_stmt_within_compound mem_expr parents ;;
    let base_str := printPrettyOf base in
    let getterName := getterName memberDecl in
    let sstr := base_str ++ "." ++ getterName ++ "()" in
    Some (queue rewriter (ReplaceText (getSourceRangeOf mem_expr) sstr))) rewriter.

(** [collect(const Stmt*, PM)] *)
Fixpoint collect_stmt (stmt : Stmt) (parents : list Stmt) (rewriter : Rewriter)
    {struct stmt} : option Rewriter :=
  let collect_children :=
    fix collect_children (children : list (option Stmt)) (rewriter : Rewriter)
        {struct children} : option Rewriter :=
      match children with
      | [] => Some rewriter
      | None :: rest => collect_children rest rewriter
      | Some child :: rest =>
          rewriter <- collect_stmt child (stmt :: parents) rewriter ;;
          collect_children rest rewriter
      end in
  match stmt with
  | BinaryOperator i opc lhs rhs =>
      rewrite_BinaryOperator i opc lhs rhs
        (collect_stmt lhs (stmt :: parents)) (collect_stmt rhs (stmt :: parents))
        parents rewriter
  | UnaryOperator i opc subExpr =>
      rewrite_UnaryOperator i opc subExpr
        (collect_stmt subExpr (stmt :: parents)) parents rewriter
  | MemberExpr i base memberDecl =>
      rewrite_MemberExpr i base memberDecl parents rewriter
  | OtherExpr _ children | DeclStmt _ children
  | CompoundStmt _ children | OtherStmt _ children =>
      collect_children children rewriter
  end.

End Rewrite.

(** The two members the passes share: [fieldRanges] and the rewriter. *)
Definition State := (FieldRanges * Rewriter)%type.

Section Collect.

(** [fields], the list under [Accessors] of the configuration. *)
Variable fields : list string.

(** The loop over [field_begin() .. field_end()] of a record. *)
Definition collect_fields (members : list FieldDecl) (fieldRanges : FieldRanges)
  : FieldRanges :=
  fold_left
    (fun fieldRanges member =>
       if configured fields (getQualifiedNameAsString member)
       then assign (getQualifiedNameAsString member) member fieldRanges
       else fieldRanges)
    members fieldRanges.

(** One turn of the loop of [collect] on a [DeclContext]. *)
Fixpoint collect_subdecl (subdecl : Decl) (st : State) {struct subdecl} : option State :=
  let collect :=
    fix collect (decls : list Decl) (st : State) {struct decls} : option State :=
      match decls with
      | [] => Some st
      | subdecl :: rest => st <- collect_subdecl subdecl st ;; collect rest st
      end in
  match subdecl with
  | RecordD members decls =>
      collect decls (collect_fields members (fst st), snd st)
  | FunctionD name body decls =>
      if negb (String.eqb name "main") then Some st
      else
        st <- match body with
              | Some body =>
                  rewriter <- collect_stmt (fst st) body [] (snd st) ;;
                  Some (fst st, rewriter)
              | None => Some st
              end ;;
        collect decls st
  | ContextD decls => collect decls st
  | OtherD => Some st
  end.

(** [collect] on a [DeclContext] *)
Fixpoint collect (decls : list Decl) (st : State) : option State :=
  match decls with
  | [] => Some st
  | subdecl :: rest => st <- collect_subdecl subdecl st ;; collect rest st
  end.

End Collect.

(** The text [replace] builds for one field. *)
Definition accessors (field : FieldDecl) : string :=
  let varname := getNameAsString field in
  let fnname := update_at 0 toupper varname in
  let ctype := constTypeAsString field in
  let type := typeAsString field in
  ctype ++ " &get" ++ fnname ++ "() const { return " ++ varname ++ "; };
" ++
  type ++ " &get" ++ fnname ++ "()  { return " ++ varname ++ "; };
" ++
  "void set" ++ fnname ++ "(" ++ ctype ++ "& _" ++ varname ++ ") { " ++
  varname ++ " = _" ++ varname ++ "; };
".

(** The [do ... while(1)] of [replace]: [remaining] is the range
    [lastMethod .. method_end()]; [check] moves with [lastMethod].  With
    [remaining] empty the loop reads [*lastMethod] at [method_end()]. *)
Fixpoint last_method_loop (remaining : list CXXMethodDecl) (loc : SourceLocation)
  : option SourceLocation :=
  match remaining with
  | [] => None
  | lastMethod :: rest =>
      if negb (isUserProvided lastMethod) then last_method_loop rest loc
      else
        let loc := getEnd (getSourceRange lastMethod) in
        match rest with
        | [] => Some loc
        | _ :: _ => last_method_loop rest loc
        end
  end.

(** The body of the loop of [replace], for the entry holding [field]. *)
Definition replace_field (field : FieldDecl) (rewriter : Rewriter) : option Rewriter :=
  let parent := getParent field in
  let sstr := accessors field in
  let hasUserDefinedMethods := existsb isUserProvided (methods parent) in
  if negb hasUserDefinedMethods
  then Some (queue rewriter (InsertTextBefore (getRBraceLoc parent) sstr))
  else
    loc <- last_method_loop (methods parent) 0 ;;
    Some (queue rewriter (InsertTextAfterToken loc sstr)).

(** [replace()] *)
Fixpoint replace (fieldRanges : FieldRanges) (rewriter : Rewriter) : option Rewriter :=
  match fieldRanges with
  | [] => Some rewriter
  | (_, second) :: rest =>
      rewriter <- replace_field second rewriter ;; replace rest rewriter
  end.

(** [HandleTranslationUnit], on the declarations of the translation unit
    and the configured list. *)
Definition HandleTranslationUnit (fields : list string) (tu : list Decl) : option State :=
  st <- collect fields tu ([], []) ;;
  rewriter <- replace (fst st) (snd st) ;;
  Some (fst st, rewriter).

End AccessorsTransform.
Import AccessorsTransform.

(** * The vocabulary of the statements

    Definitions the theorems are stated with; none of them is part of the
    transform. *)

(** ** Traversal *)

(** The loop over the children of a generic node. *)
Fixpoint collect_children (fieldRanges : FieldRanges) (children : list (option Stmt))
    (parents : list Stmt) (rewriter : Rewriter) : option Rewriter :=
  match children with
  | [] => Some rewriter
  | None :: rest => collect_children fieldRanges rest parents rewriter
  | Some child :: rest =>
      rewriter <- collect_stmt fieldRanges child parents rewriter ;;
      collect_children fieldRanges rest parents rewriter
  end.

(** [P] holds of a child pointer that is not null. *)
Definition P_child (P : Stmt -> Prop) (c : option Stmt) : Prop :=
  match c with
  | Some s => P s
  | None => True
  end.

(** ** fieldRanges in key order, every field under its own name *)

(** The order of the keys of a [std::map<string, ...>]. *)
Definition key_lt (a b : string * FieldDecl) : Prop :=
  String.compare (fst a) (fst b) = Lt.

(** The entries are in strictly increasing key order and every field is
    filed under its qualified name: what [collect] builds from the empty
    map. *)
Definition well_keyed (m : FieldRanges) : Prop :=
  StronglySorted key_lt m /\
  Forall (fun e => fst e = getQualifiedNameAsString (snd e)) m.

(** [d] is one of the recorded fields. *)
Definition is_target (m : FieldRanges) (d : FieldDecl) : Prop := In d (map snd m).

(** ** The walk to the top statement *)

(** Some ancestor is a statement other than a declaration statement, as
    the body of a function is. *)
Definition rooted (parents : list Stmt) : bool :=
  existsb (fun p => negb (isa_Expr p || isa_DeclStmt p)) parents.

(** ** Appending to the queue *)

(** [f] succeeds on every queue and only appends to it. *)
Definition extends (f : Rewriter -> option Rewriter) : Prop :=
  forall rewriter, exists new, f rewriter = Some (rewriter ++ new)%list.

(** ** Usage matching against a fixed set of target fields

    The traversal of [collect] with the field selection left out: the
    bodies of the functions named [main] are scanned against one given
    [fieldRanges], which no record changes. *)

Section MatchUsages.

Variable fieldRanges : FieldRanges.

Fixpoint match_usages_subdecl (subdecl : Decl) (rewriter : Rewriter) {struct subdecl}
  : option Rewriter :=
  let match_usages :=
    fix match_usages (decls : list Decl) (rewriter : Rewriter) {struct decls}
        : option Rewriter :=
      match decls with
      | [] => Some rewriter
      | subdecl :: rest =>
          rewriter <- match_usages_subdecl subdecl rewriter ;;
          match_usages rest rewriter
      end in
  match subdecl with
  | RecordD _ decls | ContextD decls => match_usages decls rewriter
  | FunctionD name body decls =>
      if negb (String.eqb name "main") then Some rewriter
      else
        rewriter <- match body with
                    | Some body => collect_stmt fieldRanges body [] rewriter
                    | None => Some rewriter
                    end ;;
        match_usages decls rewriter
  | OtherD => Some rewriter
  end.

Fixpoint match_usages (decls : list Decl) (rewriter : Rewriter) : option Rewriter :=
  match decls with
  | [] => Some rewriter
  | subdecl :: rest =>
      rewriter <- match_usages_subdecl subdecl rewriter ;;
      match_usages rest rewriter
  end.

Variable fields : list string.

(** No record reached by the traversal of [decls] changes [fieldRanges]:
    every configured field in them is recorded already. *)
Fixpoint settled_subdecl (subdecl : Decl) {struct subdecl} : Prop :=
  let settled :=
    fix settled (decls : list Decl) : Prop :=
      match decls with
      | [] => True
      | subdecl :: rest => settled_subdecl subdecl /\ settled rest
      end in
  match subdecl with
  | RecordD members decls =>
      collect_fields fields members fieldRanges = fieldRanges /\ settled decls
  | FunctionD name _ decls => if String.eqb name "main" then settled decls else True
  | ContextD decls => settled decls
  | OtherD => True
  end.

Fixpoint settled (decls : list Decl) : Prop :=
  match decls with
  | [] => True
  | subdecl :: rest => settled_subdecl subdecl /\ settled rest
  end.

End MatchUsages.

(** No function named [main] is reached by the traversal of [subdecl]. *)
Fixpoint without_main (subdecl : Decl) : bool :=
  match subdecl with
  | RecordD _ decls | ContextD decls => forallb without_main decls
  | FunctionD name _ _ => negb (String.eqb name "main")
  | OtherD => true
  end.

(** ** Statements that mention a recorded field *)

(** [d] is the declaration of some entry, as the test of the loops over
    [fieldRanges] decides it. *)
Definition recorded (m : FieldRanges) (d : FieldDecl) : bool :=
  existsb (fun e => if FieldDecl_eq_dec d (snd e) then true else false) m.

Section Mentions.

Variable m : FieldRanges.

(** Some member access in [stmt], at any depth, names a recorded field. *)
Fixpoint mentions (stmt : Stmt) : bool :=
  let mentions_children :=
    fix mentions_children (children : list (option Stmt)) : bool :=
      match children with
      | [] => false
      | None :: rest => mentions_children rest
      | Some child :: rest => mentions child || mentions_children rest
      end in
  match stmt with
  | BinaryOperator _ _ lhs rhs => mentions lhs || mentions rhs
  | UnaryOperator _ _ subExpr => mentions subExpr
  | MemberExpr _ base memberDecl => recorded m memberDecl || mentions base
  | OtherExpr _ children | DeclStmt _ children
  | CompoundStmt _ children | OtherStmt _ children => mentions_children children
  end.

Fixpoint mentions_children (children : list (option Stmt)) : bool :=
  match children with
  | [] => false
  | None :: rest => mentions_children rest
  | Some child :: rest => mentions child || mentions_children rest
  end.

End Mentions.

(** ** The fields of the records the traversal reaches *)

(** The members of the records [collect] visits in [subdecl], in the order
    it visits them: nothing under a function that is not named [main]. *)
Fixpoint visited_fields_subdecl (subdecl : Decl) : list FieldDecl :=
  let visited_fields :=
    fix visited_fields (decls : list Decl) : list FieldDecl :=
      match decls with
      | [] => []
      | subdecl :: rest => (visited_fields_subdecl subdecl ++ visited_fields rest)%list
      end in
  match subdecl with
  | RecordD members decls => (members ++ visited_fields decls)%list
  | FunctionD name _ decls =>
      if String.eqb name "main" then visited_fields decls else []
  | ContextD decls => visited_fields decls
  | OtherD => []
  end.

Fixpoint visited_fields (decls : list Decl) : list FieldDecl :=
  match decls with
  | [] => []
  | subdecl :: rest => (visited_fields_subdecl subdecl ++ visited_fields rest)%list
  end.

(** ** Placing the accessors *)

(** The loop of [replace] finds its place in the record: no method is
    user-provided, or the last one is. *)
Definition placeable (parent : CXXRecordDecl) : bool :=
  negb (existsb isUserProvided (methods parent)) ||
  match rev (methods parent) with
  | last :: _ => isUserProvided last
  | [] => false
  end.

(** * Four translation units

    The first unit, with the offset of the first character of each line:
<<
   0  struct Foo {
  13    int f;
  22    int g;
  31  };
  34  void helper(Foo &obj) { obj.f = 1; }
  71  int main() {
  84    Foo obj;
  95    int c = 0;
 108    int *p = &obj.f;
 127    int z = (obj.f += 3);
 151    obj.f = obj.g;
 168    int a = ++obj.f;
 187    int b = obj.f++;
 206    if (c) c = ++obj.f;
 228    int y = (obj.f = 5);
 251    return 0;
 263  }
>>
    The second:
<<
   0  struct Outer {
  15    void main() { Inner i; i.y = 1; }
  51    struct Inner { int y; };
  78  };
>>
    The third:
<<
   0  struct Counter {
  17    int n;
  26    void reset() { n = 0; }
  52  };
  55  int main() {
  68    Counter c;
  81    return 0;
  93  }
>>
    The fourth:
<<
   0  struct Foo {
  13    int f;
  22    int g;
  31  };
  34  int main() {
  47    Foo obj;
  58    int c = 0;
  71    while ((obj.f += 3) < 10) ;
 101    c = obj.f++;
 116    return c;
 128  }
>>
    A range runs from the first character of its first token to the first
    character of its last token.  Implicit casts and parentheses are
    generic expressions with one child.  Declaring an object of a record
    makes the compiler declare its default constructor, which then stands
    among the methods of the record after the ones written in the source;
    it is not user-provided. *)

Module Example.

Definition node (b e : nat) (text : string) : StmtInfo := mkInfo (mkRange b e) text.
Definition leaf (b : nat) (text : string) : Stmt := OtherExpr (node b b text) [].
Definition wrap (b e : nat) (text : string) (s : Stmt) : Stmt :=
  OtherExpr (node b e text) [Some s].

Definition Foo : CXXRecordDecl := mkRecord 31 [mkMethod false (mkRange 7 7)].
Definition f : FieldDecl := mkField 1 "f" "Foo::f" "int" "const int" Foo.
Definition g : FieldDecl := mkField 2 "g" "Foo::g" "int" "const int" Foo.

Definition obj_f (b : nat) : Stmt := MemberExpr (node b (b + 4) "obj.f") (leaf b "obj") f.
Definition obj_g (b : nat) : Stmt := MemberExpr (node b (b + 4) "obj.g") (leaf b "obj") g.

Definition helper_assign : Stmt :=
  BinaryOperator (node 58 66 "obj.f = 1") BO_Assign (obj_f 58) (leaf 66 "1").
Definition helper_body : Stmt :=
  CompoundStmt (node 56 69 "{ obj.f = 1; }") [Some helper_assign].

Definition decl_obj : Stmt := DeclStmt (node 86 93 "Foo obj;") [Some (leaf 90 "")].
Definition decl_c : Stmt := DeclStmt (node 97 106 "int c = 0;") [Some (leaf 105 "0")].

Definition addr_of : Stmt := UnaryOperator (node 119 124 "&obj.f") UO_AddrOf (obj_f 120).
Definition decl_p : Stmt := DeclStmt (node 110 125 "int *p = &obj.f;") [Some addr_of].

Definition add_assign : Stmt :=
  BinaryOperator (node 138 147 "obj.f += 3") BO_AddAssign (obj_f 138) (leaf 147 "3").
Definition paren_z : Stmt := wrap 137 148 "(obj.f += 3)" add_assign.
Definition cast_z : Stmt := wrap 137 148 "(obj.f += 3)" paren_z.
Definition decl_z : Stmt := DeclStmt (node 129 149 "int z = (obj.f += 3);") [Some cast_z].

Definition cast_g : Stmt := wrap 161 165 "obj.g" (obj_g 161).
Definition assign_fg : Stmt :=
  BinaryOperator (node 153 165 "obj.f = obj.g") BO_Assign (obj_f 153) cast_g.

Definition pre_inc : Stmt := UnaryOperator (node 178 184 "++obj.f") UO_PreInc (obj_f 180).
Definition cast_a : Stmt := wrap 178 184 "++obj.f" pre_inc.
Definition decl_a : Stmt := DeclStmt (node 170 185 "int a = ++obj.f;") [Some cast_a].

Definition post_inc : Stmt := UnaryOperator (node 197 202 "obj.f++") UO_PostInc (obj_f 197).
Definition decl_b : Stmt := DeclStmt (node 189 204 "int b = obj.f++;") [Some post_inc].

Definition cond_c : Stmt := wrap 212 212 "c" (wrap 212 212 "c" (leaf 212 "c")).
Definition inc_in_if : Stmt := UnaryOperator (node 219 225 "++obj.f") UO_PreInc (obj_f 221).
Definition cast_in_if : Stmt := wrap 219 225 "++obj.f" inc_in_if.
Definition assign_c : Stmt :=
  BinaryOperator (node 215 225 "c = ++obj.f") BO_Assign (leaf 215 "c") cast_in_if.
Definition if_c : Stmt :=
  OtherStmt (node 208 225 "if (c)
    c = ++obj.f;
") [None; Some cond_c; Some assign_c; None].

Definition assign_5 : Stmt :=
  BinaryOperator (node 239 247 "obj.f = 5") BO_Assign (obj_f 239) (leaf 247 "5").
Definition paren_y : Stmt := wrap 238 248 "(obj.f = 5)" assign_5.
Definition cast_y : Stmt := wrap 238 248 "(obj.f = 5)" paren_y.
Definition decl_y : Stmt := DeclStmt (node 230 249 "int y = (obj.f = 5);") [Some cast_y].

Definition return_0 : Stmt := OtherStmt (node 253 260 "return 0;") [Some (leaf 260 "0")].

Definition main_body : Stmt :=
  CompoundStmt (node 82 263 "{
    Foo obj;
    int c = 0;
    int *p = &obj.f;
    int z = (obj.f += 3);
    obj.f = obj.g;
    int a = ++obj.f;
    int b = obj.f++;
    if (c)
        c = ++obj.f;
    int y = (obj.f = 5);
    return 0;
}
")
    [Some decl_obj; Some decl_c; Some decl_p; Some decl_z; Some assign_fg;
     Some decl_a; Some decl_b; Some if_c; Some decl_y; Some return_0].

Definition unit1 : list Decl :=
  [RecordD [f; g] [RecordD [] []; OtherD; OtherD; FunctionD "Foo" None []];
   FunctionD "helper" (Some helper_body) [OtherD];
   FunctionD "main" (Some main_body) [OtherD; OtherD; OtherD; OtherD; OtherD; OtherD; OtherD]].

(** [fieldRanges] once [Foo] has been visited, with both fields configured. *)
Definition targets_fg : FieldRanges := [("Foo::f", f); ("Foo::g", g)].

Definition Inner : CXXRecordDecl := mkRecord 75 [mkMethod false (mkRange 60 60)].
Definition y : FieldDecl := mkField 3 "y" "Outer::Inner::y" "int" "const int" Inner.

Definition assign_y : Stmt :=
  BinaryOperator (node 40 46 "i.y = 1") BO_Assign
    (MemberExpr (node 40 42 "i.y") (leaf 40 "i") y) (leaf 46 "1").
Definition outer_main_body : Stmt :=
  CompoundStmt (node 29 49 "{
    Inner i;
    i.y = 1;
}
")
    [Some (DeclStmt (node 31 38 "Inner i;") [Some (leaf 37 "")]); Some assign_y].

Definition unit2 : list Decl :=
  [RecordD []
     [RecordD [] [];
      FunctionD "main" (Some outer_main_body) [OtherD];
      RecordD [y] [RecordD [] []; OtherD; FunctionD "Inner" None []]]].

Definition Counter : CXXRecordDecl :=
  mkRecord 52 [mkMethod true (mkRange 28 50); mkMethod false (mkRange 7 7)].
Definition n : FieldDecl := mkField 4 "n" "Counter::n" "int" "const int" Counter.

Definition reset_body : Stmt :=
  CompoundStmt (node 41 50 "{
    this->n = 0;
}
")
    [Some (BinaryOperator (node 43 47 "this->n = 0") BO_Assign
             (MemberExpr (node 43 43 "this->n") (leaf 43 "this") n) (leaf 47 "0"))].

Definition counter_main_body : Stmt :=
  CompoundStmt (node 66 93 "{
    Counter c;
    return 0;
}
")
    [Some (DeclStmt (node 70 79 "Counter c;") [Some (leaf 78 "")]);
     Some (OtherStmt (node 83 90 "return 0;") [Some (leaf 90 "0")])].

Definition unit3 : list Decl :=
  [RecordD [n]
     [RecordD [] []; OtherD; FunctionD "reset" (Some reset_body) [];
      FunctionD "Counter" None []];
   FunctionD "main" (Some counter_main_body) [OtherD]].

(** The fourth unit declares [Foo] as the first does. *)

Definition while_assign : Stmt :=
  BinaryOperator (node 81 90 "obj.f += 3") BO_AddAssign (obj_f 81) (leaf 90 "3").
Definition while_paren : Stmt := wrap 80 91 "(obj.f += 3)" while_assign.
Definition while_cast : Stmt := wrap 80 91 "(obj.f += 3)" while_paren.
Definition while_cond : Stmt :=
  BinaryOperator (node 80 95 "(obj.f += 3) < 10") BO_LT while_cast (leaf 95 "10").
Definition while_stmt : Stmt :=
  OtherStmt (node 73 99 "while ((obj.f += 3) < 10)
    ;
") [None; Some while_cond; Some (OtherStmt (node 99 99 ";
") [])].

Definition c_post_inc : Stmt := UnaryOperator (node 107 112 "obj.f++") UO_PostInc (obj_f 107).
Definition c_assign : Stmt :=
  BinaryOperator (node 103 112 "c = obj.f++") BO_Assign (leaf 103 "c") c_post_inc.

Definition body4 : Stmt :=
  CompoundStmt (node 45 128 "{
    Foo obj;
    int c = 0;
    while ((obj.f += 3) < 10)
        ;
    c = obj.f++;
    return c;
}
")
    [Some (DeclStmt (node 49 56 "Foo obj;") [Some (leaf 53 "")]);
     Some (DeclStmt (node 60 69 "int c = 0;") [Some (leaf 68 "0")]);
     Some while_stmt; Some c_assign;
     Some (OtherStmt (node 118 125 "return c;") [Some (wrap 125 125 "c" (leaf 125 "c"))])].

Definition unit4 : list Decl :=
  [RecordD [f; g] [RecordD [] []; OtherD; OtherD; FunctionD "Foo" None []];
   FunctionD "main" (Some body4) [OtherD; OtherD]].

End Example.

(** * Properties *)

(** ** Induction over statements and declarations *)

Section Stmt_induction.

Variable P : Stmt -> Prop.

Hypothesis P_BinaryOperator :
  forall i opc lhs rhs, P lhs -> P rhs -> P (BinaryOperator i opc lhs rhs).
Hypothesis P_UnaryOperator :
  forall i opc subExpr, P subExpr -> P (UnaryOperator i opc subExpr).
Hypothesis P_MemberExpr :
  forall i base memberDecl, P base -> P (MemberExpr i base memberDecl).
Hypothesis P_OtherExpr :
  forall i children, Forall (P_child P) children -> P (OtherExpr i children).
Hypothesis P_DeclStmt :
  forall i children, Forall (P_child P) children -> P (DeclStmt i children).
Hypothesis P_CompoundStmt :
  forall i children, Forall (P_child P) children -> P (CompoundStmt i children).
Hypothesis P_OtherStmt :
  forall i children, Forall (P_child P) children -> P (OtherStmt i children).

Fixpoint Stmt_nested_ind (s : Stmt) : P s :=
  let children_ind :=
    fix children_ind (cs : list (option Stmt)) : Forall (P_child P) cs :=
      match cs with
      | [] => Forall_nil _
      | None :: rest => Forall_cons None I (children_ind rest)
      | Some c :: rest => Forall_cons (Some c) (Stmt_nested_ind c) (children_ind rest)
      end in
  match s with
  | BinaryOperator i opc lhs rhs =>
      P_BinaryOperator i opc lhs rhs (Stmt_nested_ind lhs) (Stmt_nested_ind rhs)
  | UnaryOperator i opc subExpr => P_UnaryOperator i opc subExpr (Stmt_nested_ind subExpr)
  | MemberExpr i base memberDecl => P_MemberExpr i base memberDecl (Stmt_nested_ind base)
  | OtherExpr i children => P_OtherExpr i children (children_ind children)
  | DeclStmt i children => P_DeclStmt i children (children_ind children)
  | CompoundStmt i children => P_CompoundStmt i children (children_ind children)
  | OtherStmt i children => P_OtherStmt i children (children_ind children)
  end.

End Stmt_induction.

Section Decl_induction.

Variable P : Decl -> Prop.

Hypothesis P_RecordD :
  forall members decls, Forall P decls -> P (RecordD members decls).
Hypothesis P_FunctionD :
  forall name body decls, Forall P decls -> P (FunctionD name body decls).
Hypothesis P_ContextD : forall decls, Forall P decls -> P (ContextD decls).
Hypothesis P_OtherD : P OtherD.

Fixpoint Decl_nested_ind (d : Decl) : P d :=
  let decls_ind :=
    fix decls_ind (ds : list Decl) : Forall P ds :=
      match ds with
      | [] => Forall_nil _
      | d :: rest => Forall_cons d (Decl_nested_ind d) (decls_ind rest)
      end in
  match d with
  | RecordD members decls => P_RecordD members decls (decls_ind decls)
  | FunctionD name body decls => P_FunctionD name body decls (decls_ind decls)
  | ContextD decls => P_ContextD decls (decls_ind decls)
  | OtherD => P_OtherD
  end.

End Decl_induction.

(** ** The traversals, one step at a time *)

Lemma collect_stmt_children fieldRanges stmt parents rewriter :
  collect_stmt fieldRanges stmt parents rewriter =
  match stmt with
  | BinaryOperator i opc lhs rhs =>
      rewrite_BinaryOperator fieldRanges i opc lhs rhs
        (collect_stmt fieldRanges lhs (stmt :: parents))
        (collect_stmt fieldRanges rhs (stmt :: parents)) parents rewriter
  | UnaryOperator i opc subExpr =>
      rewrite_UnaryOperator fieldRanges i opc subExpr
        (collect_stmt fieldRanges subExpr (stmt :: parents)) parents rewriter
  | MemberExpr i base memberDecl =>
      rewrite_MemberExpr fieldRanges i base memberDecl parents rewriter
  | OtherExpr _ children | DeclStmt _ children
  | CompoundStmt _ children | OtherStmt _ children =>
      collect_children fieldRanges children (stmt :: parents) rewriter
  end.
Proof.
  assert (E : forall ps cs rw,
    (fix collect_children (children : list (option Stmt)) (rewriter : Rewriter)
         {struct children} : option Rewriter :=
       match children with
       | [] => Some rewriter
       | None :: rest => collect_children rest rewriter
       | Some child :: rest =>
           rewriter <- collect_stmt fieldRanges child ps rewriter ;;
           collect_children rest rewriter
       end) cs rw = collect_children fieldRanges cs ps rw).
  { intros ps cs; induction cs as [|[c|] cs IH]; intros rw; simpl;
      [reflexivity | | apply IH].
    destruct (collect_stmt fieldRanges c ps rw); simpl; auto. }
  destruct stmt; try reflexivity; apply E.
Qed.

Lemma collect_subdecl_eq fields subdecl st :
  collect_subdecl fields subdecl st =
  match subdecl with
  | RecordD members decls =>
      collect fields decls (collect_fields fields members (fst st), snd st)
  | FunctionD name body decls =>
      if negb (String.eqb name "main") then Some st
      else
        st <- match body with
              | Some body =>
                  rewriter <- collect_stmt (fst st) body [] (snd st) ;;
                  Some (fst st, rewriter)
              | None => Some st
              end ;;
        collect fields decls st
  | ContextD decls => collect fields decls st
  | OtherD => Some st
  end.
Proof. destruct subdecl; reflexivity. Qed.

Lemma collect_app fields pre post st :
  collect fields (pre ++ post) st = (st <- collect fields pre st ;; collect fields post st).
Proof.
  revert st; induction pre as [|d pre IH]; intros st; simpl; [reflexivity|].
  destruct (collect_subdecl fields d st); simpl; auto.
Qed.

Lemma append_assoc (a b c : string) : (a ++ b) ++ c = a ++ (b ++ c).
Proof. induction a as [|x a IH]; simpl; [reflexivity | rewrite IH; reflexivity]. Qed.

Lemma bind_Some_r {A : Type} (m : option A) : (x <- m ;; Some x) = m.
Proof. destruct m; reflexivity. Qed.

(** ** fieldRanges stays in key order, every field under its own name *)

Lemma compare_Lt_trans a b c :
  String.compare a b = Lt -> String.compare b c = Lt -> String.compare a c = Lt.
Proof.
  intros H1 H2. apply String_as_OT.cmp_lt.
  apply String_as_OT.lt_trans with b; apply String_as_OT.cmp_lt; assumption.
Qed.

Lemma compare_refl a : String.compare a a = Eq.
Proof. apply String_as_OT.cmp_eq; reflexivity. Qed.

Lemma assign_In key value m e :
  In e (assign key value m) -> e = (key, value) \/ In e m.
Proof.
  induction m as [|[k v] m IH]; simpl.
  - intros [H|[]]; auto.
  - destruct (String.compare key k); simpl; intros [H|H]; auto.
    destruct (IH H); auto.
Qed.

Lemma assign_sorted key value m :
  StronglySorted key_lt m -> StronglySorted key_lt (assign key value m).
Proof.
  induction m as [|[k v] m IH]; simpl; intros S.
  - repeat constructor.
  - inversion S as [|? ? S' F]; subst.
    destruct (String.compare key k) eqn:C.
    + apply String.compare_eq_iff in C; subst k. constructor; assumption.
    + constructor; [assumption|]. constructor; [exact C|].
      eapply Forall_impl; [|exact F].
      intros e He. unfold key_lt in *; simpl in *. eapply compare_Lt_trans; eauto.
    + constructor; [auto|]. apply Forall_forall. intros e He.
      destruct (assign_In _ _ _ _ He) as [->|He'].
      * unfold key_lt; simpl. rewrite String.compare_antisym, C. reflexivity.
      * rewrite Forall_forall in F; auto.
Qed.

Lemma assign_well_keyed value m :
  well_keyed m -> well_keyed (assign (getQualifiedNameAsString value) value m).
Proof.
  intros [S K]; split; [apply assign_sorted; assumption|].
  apply Forall_forall. intros e He.
  destruct (assign_In _ _ _ _ He) as [->|He']; [reflexivity|].
  rewrite Forall_forall in K; auto.
Qed.

Lemma collect_fields_well_keyed fields members m :
  well_keyed m -> well_keyed (collect_fields fields members m).
Proof.
  unfold collect_fields. revert m.
  induction members as [|f members IH]; intros m W; simpl; [assumption|].
  apply IH. destruct (configured fields _); [apply assign_well_keyed|]; assumption.
Qed.

Lemma for_each_match_none m d body rewriter :
  ~ is_target m d -> for_each_match m d body rewriter = Some rewriter.
Proof.
  unfold is_target. induction m as [|[k v] m IH]; simpl; intros N; [reflexivity|].
  destruct (FieldDecl_eq_dec d v) as [->|_]; [exfalso; auto | apply IH; auto].
Qed.

(** The loop body runs exactly once for a recorded field. *)
Lemma for_each_match_once m d body rewriter :
  well_keyed m -> is_target m d -> for_each_match m d body rewriter = body rewriter.
Proof.
  unfold is_target. induction m as [|[k v] m IH]; simpl; intros [S K] T; [contradiction|].
  inversion S as [|? ? S' F]; subst. inversion K as [|? ? Kv K']; subst.
  simpl in Kv. destruct (FieldDecl_eq_dec d v) as [->|N].
  - destruct (body rewriter) as [r|]; simpl; [|reflexivity].
    apply for_each_match_none. unfold is_target. intros I.
    apply in_map_iff in I. destruct I as [[k' v'] [E I]]. simpl in E. subst v'.
    rewrite Forall_forall in F, K'. specialize (F _ I). specialize (K' _ I).
    unfold key_lt in F; simpl in *. subst. rewrite compare_refl in F. discriminate.
  - apply IH; [split; assumption|]. destruct T; [congruence|assumption].
Qed.

(** ** The walk to the top statement *)

Lemma top_stmt_rooted stmt parents :
  rooted parents = true ->
  exists top p up,
    top_stmt_within_compound stmt parents = Some (top, p :: up) /\
    isa_Expr p || isa_DeclStmt p = false.
Proof.
  revert stmt. induction parents as [|p up IH]; intros stmt; simpl; [discriminate|].
  destruct (isa_Expr p || isa_DeclStmt p) eqn:E; simpl; intros R.
  - apply IH; assumption.
  - exists stmt, p, up; auto.
Qed.

Lemma top_stmt_depth stmt parents top top_parents :
  top_stmt_within_compound stmt parents = Some (top, top_parents) ->
  length top_parents <= length parents.
Proof.
  revert stmt. induction parents as [|p up IH]; intros stmt; simpl; [discriminate|].
  destruct (isa_Expr p || isa_DeclStmt p).
  - intros H. apply IH in H. lia.
  - intros H. inversion H; subst. simpl. lia.
Qed.

(** A node under an expression or a declaration statement is not the top
    statement; the walk goes on from its parent. *)
Lemma top_stmt_climb stmt p up :
  isa_Expr p || isa_DeclStmt p = true ->
  top_stmt_within_compound stmt (p :: up) = top_stmt_within_compound p up.
Proof. intros E; simpl; rewrite E; reflexivity. Qed.

Lemma is_top_climbed stmt p up top top_parents :
  top_stmt_within_compound stmt up = Some (top, top_parents) ->
  is_top (p :: up) top_parents = false.
Proof.
  intros H. apply top_stmt_depth in H. unfold is_top.
  apply Nat.eqb_neq. simpl. lia.
Qed.

(** A node directly under a statement that is neither an expression nor a
    declaration statement is its own top statement. *)
Lemma top_stmt_stop stmt p up :
  isa_Expr p || isa_DeclStmt p = false ->
  top_stmt_within_compound stmt (p :: up) = Some (stmt, p :: up).
Proof. intros E; simpl; rewrite E; reflexivity. Qed.

Lemma is_top_refl parents : is_top parents parents = true.
Proof. unfold is_top. apply Nat.eqb_refl. Qed.

(** ** Scanning a rooted statement succeeds and only appends to the queue *)

Lemma extends_ret : extends (fun rewriter => Some rewriter).
Proof. intros rw; exists []; rewrite app_nil_r; reflexivity. Qed.

Lemma extends_queue e : extends (fun rewriter => Some (queue rewriter e)).
Proof. intros rw; exists [e]; reflexivity. Qed.

Lemma extends_bind f g :
  extends f -> extends g -> extends (fun rewriter => r <- f rewriter ;; g r).
Proof.
  intros F G rw. destruct (F rw) as [n1 ->]; simpl.
  destruct (G (rw ++ n1)%list) as [n2 ->].
  exists (n1 ++ n2)%list. rewrite app_assoc; reflexivity.
Qed.

Lemma extends_ext f g : (forall rewriter, f rewriter = g rewriter) -> extends g -> extends f.
Proof. intros E G rw. rewrite E. apply G. Qed.

Lemma for_each_match_extends m d body :
  extends body -> extends (for_each_match m d body).
Proof.
  intros B. induction m as [|[k v] m IH]; simpl; [apply extends_ret|].
  intros rw. destruct (FieldDecl_eq_dec d v); [|apply IH].
  apply (extends_bind body (for_each_match m d body) B IH).
Qed.

Lemma rooted_cons p parents : rooted parents = true -> rooted (p :: parents) = true.
Proof. unfold rooted; simpl; intros ->; apply orb_true_r. Qed.

Lemma rewrite_BinaryOperator_extends m i opc lhs rhs cl cr parents :
  rooted parents = true -> extends cl -> extends cr ->
  extends (rewrite_BinaryOperator m i opc lhs rhs cl cr parents).
Proof.
  intros R L Rr. unfold rewrite_BinaryOperator.
  destruct lhs; try (apply (extends_bind cl cr L Rr)).
  apply for_each_match_extends. intros rw.
  destruct (top_stmt_rooted (BinaryOperator i opc (MemberExpr i0 lhs memberDecl) rhs)
              parents R) as (top & p & up & -> & _); simpl.
  destruct (isCompoundAssignmentOp opc).
  - destruct (negb _).
    + destruct (Rr rw) as [n ->]; simpl. unfold queue.
      rewrite <- !app_assoc. eexists; reflexivity.
    + destruct (Rr rw) as [n ->]; simpl. unfold queue.
      rewrite <- !app_assoc. eexists; reflexivity.
  - destruct (isAssign opc).
    + destruct (Rr rw) as [n ->]; simpl. unfold queue.
      rewrite <- !app_assoc. eexists; reflexivity.
    + apply extends_ret.
Qed.

Lemma rewrite_UnaryOperator_extends m i opc subExpr cs parents :
  rooted parents = true -> extends cs ->
  extends (rewrite_UnaryOperator m i opc subExpr cs parents).
Proof.
  intros R C. unfold rewrite_UnaryOperator.
  destruct subExpr; try exact C.
  apply for_each_match_extends. intros rw.
  destruct (top_stmt_rooted (UnaryOperator i opc (MemberExpr i0 subExpr memberDecl))
              parents R) as (top & p & up & -> & _); simpl.
  destruct (negb (isIncrementDecrementOp opc)); [apply C|].
  unfold queue.
  destruct (negb (isa_CompoundStmt p) && negb (is_top parents (p :: up)));
    destruct (is_top parents (p :: up)); destruct (isPrefix opc);
    rewrite <- ?app_assoc; eexists; reflexivity.
Qed.

Lemma rewrite_MemberExpr_extends m i base memberDecl parents :
  rooted parents = true -> extends (rewrite_MemberExpr m i base memberDecl parents).
Proof.
  intros R. unfold rewrite_MemberExpr.
  apply for_each_match_extends. intros rw.
  destruct (top_stmt_rooted (MemberExpr i base memberDecl) parents R)
    as (top & p & up & -> & _); simpl.
  apply extends_queue.
Qed.

Lemma collect_children_extends m children parents :
  Forall (P_child (fun s => forall parents, rooted parents = true ->
                              extends (collect_stmt m s parents))) children ->
  rooted parents = true -> extends (collect_children m children parents).
Proof.
  intros F R. induction F as [|[c|] cs Hc F IH]; simpl.
  - apply extends_ret.
  - apply (extends_bind (collect_stmt m c parents) (collect_children m cs parents));
      [apply Hc; assumption | exact IH].
  - exact IH.
Qed.

Lemma collect_stmt_extends m stmt :
  forall parents, rooted parents = true -> extends (collect_stmt m stmt parents).
Proof.
  induction stmt using Stmt_nested_ind; intros parents R;
    (eapply extends_ext; [intros rw; apply collect_stmt_children|]).
  - apply rewrite_BinaryOperator_extends; auto using rooted_cons.
  - apply rewrite_UnaryOperator_extends; auto using rooted_cons.
  - apply rewrite_MemberExpr_extends; assumption.
  - apply collect_children_extends; auto using rooted_cons.
  - apply collect_children_extends; auto using rooted_cons.
  - apply collect_children_extends; auto using rooted_cons.
  - apply collect_children_extends; auto using rooted_cons.
Qed.

Lemma collect_body_extends m body :
  isa_Expr body || isa_DeclStmt body = false -> extends (collect_stmt m body []).
Proof.
  intros B.
  assert (F : forall cs, Forall (P_child (fun s => forall parents, rooted parents = true ->
                                    extends (collect_stmt m s parents))) cs).
  { induction cs as [|[c|] cs IH]; constructor; simpl; auto.
    intros parents R. apply collect_stmt_extends; assumption. }
  assert (R : rooted [body] = true) by (unfold rooted; simpl; rewrite B; reflexivity).
  destruct body; try discriminate B;
    (eapply extends_ext; [intros rw; apply collect_stmt_children|]);
    apply collect_children_extends; auto.
Qed.

(** ** What the declaration pass keeps *)

Lemma collect_subdecl_well_keyed fields subdecl :
  forall st st', collect_subdecl fields subdecl st = Some st' ->
                 well_keyed (fst st) -> well_keyed (fst st').
Proof.
  assert (L : forall decls,
    Forall (fun d => forall st st', collect_subdecl fields d st = Some st' ->
                       well_keyed (fst st) -> well_keyed (fst st')) decls ->
    forall st st', collect fields decls st = Some st' ->
                   well_keyed (fst st) -> well_keyed (fst st')).
  { intros decls F. induction F as [|d ds Hd F IH]; simpl; intros st st' H W.
    - inversion H; subst; assumption.
    - destruct (collect_subdecl fields d st) as [s1|] eqn:E; simpl in H; [|discriminate].
      eapply IH; eauto. }
  induction subdecl using Decl_nested_ind; intros st st'; rewrite collect_subdecl_eq.
  - intros C W. eapply L; eauto. simpl. apply collect_fields_well_keyed; assumption.
  - destruct (negb (name =? "main")).
    + intros C W; inversion C; subst; assumption.
    + destruct body as [b|]; simpl.
      * destruct (collect_stmt (fst st) b [] (snd st)) as [rw|]; simpl; [|discriminate].
        intros C W. eapply L; eauto.
      * intros C W. eapply L; eauto.
  - intros C W. eapply L; eauto.
  - intros C W; inversion C; subst; assumption.
Qed.

(** From the empty map on, [fieldRanges] is well keyed. *)
Lemma collect_well_keyed fields decls st st' :
  collect fields decls st = Some st' -> well_keyed (fst st) -> well_keyed (fst st').
Proof.
  revert st. induction decls as [|d ds IH]; simpl; intros st H W.
  - inversion H; subst; assumption.
  - destruct (collect_subdecl fields d st) as [s1|] eqn:E; simpl in H; [|discriminate].
    eapply IH; eauto. eapply collect_subdecl_well_keyed; eauto.
Qed.

Lemma well_keyed_nil : well_keyed [].
Proof. split; constructor. Qed.

(** ** Against a settled set the traversal is usage matching *)

Lemma collect_subdecl_settled m fields subdecl :
  forall rewriter, settled_subdecl m fields subdecl ->
    collect_subdecl fields subdecl (m, rewriter) =
    (rewriter' <- match_usages_subdecl m subdecl rewriter ;; Some (m, rewriter')).
Proof.
  assert (L : forall decls,
    Forall (fun d => forall rewriter, settled_subdecl m fields d ->
      collect_subdecl fields d (m, rewriter) =
      (rewriter' <- match_usages_subdecl m d rewriter ;; Some (m, rewriter'))) decls ->
    forall rewriter, settled m fields decls ->
      collect fields decls (m, rewriter) =
      (rewriter' <- match_usages m decls rewriter ;; Some (m, rewriter'))).
  { intros decls F. induction F as [|d ds Hd F IH]; simpl; intros rw S; [reflexivity|].
    destruct S as [Sd S]. rewrite (Hd rw Sd).
    destruct (match_usages_subdecl m d rw) as [r|]; simpl; auto. }
  induction subdecl using Decl_nested_ind; intros rw S; rewrite collect_subdecl_eq.
  - destruct S as [E S]. simpl fst; simpl snd. rewrite E. apply (L decls H rw S).
  - change (settled_subdecl m fields (FunctionD name body decls))
      with (if String.eqb name "main" then settled m fields decls else True) in S.
    change (match_usages_subdecl m (FunctionD name body decls) rw)
      with (if negb (String.eqb name "main") then Some rw
            else r <- match body with
                      | Some body => collect_stmt m body [] rw
                      | None => Some rw
                      end ;; match_usages m decls r).
    destruct (String.eqb name "main"); simpl; [|reflexivity].
    destruct body as [b|]; simpl; [|apply (L decls H rw S)].
    destruct (collect_stmt m b [] rw) as [r|]; simpl; [|reflexivity].
    apply (L decls H r S).
  - apply (L decls H rw S).
  - reflexivity.
Qed.

Lemma collect_settled m fields decls rewriter :
  settled m fields decls ->
  collect fields decls (m, rewriter) =
  (rewriter' <- match_usages m decls rewriter ;; Some (m, rewriter')).
Proof.
  revert rewriter. induction decls as [|d ds IH]; simpl; intros rw S; [reflexivity|].
  destruct S as [Sd S]. rewrite (collect_subdecl_settled m fields d rw Sd).
  destruct (match_usages_subdecl m d rw) as [r|]; simpl; auto.
Qed.

Lemma match_usages_app m pre post rewriter :
  match_usages m (pre ++ post) rewriter =
  (rewriter' <- match_usages m pre rewriter ;; match_usages m post rewriter').
Proof.
  revert rewriter; induction pre as [|d pre IH]; intros rw; simpl; [reflexivity|].
  destruct (match_usages_subdecl m d rw); simpl; auto.
Qed.

Lemma without_main_subdecl fields subdecl :
  without_main subdecl = true ->
  (forall m rewriter, match_usages_subdecl m subdecl rewriter = Some rewriter) /\
  (forall st, exists m', collect_subdecl fields subdecl st = Some (m', snd st)).
Proof.
  assert (L : forall decls,
    Forall (fun d => without_main d = true ->
      (forall m rewriter, match_usages_subdecl m d rewriter = Some rewriter) /\
      (forall st, exists m', collect_subdecl fields d st = Some (m', snd st))) decls ->
    forallb without_main decls = true ->
    (forall m rewriter, match_usages m decls rewriter = Some rewriter) /\
    (forall st, exists m', collect fields decls st = Some (m', snd st))).
  { intros decls F. induction F as [|d ds Hd F IH]; simpl; intros W.
    - split; [reflexivity|]. intros [m rw]; exists m; reflexivity.
    - apply andb_true_iff in W. destruct W as [Wd W].
      destruct (Hd Wd) as [M C]. destruct (IH W) as [Ms Cs]. split.
      + intros m rw. rewrite M; simpl. apply Ms.
      + intros st. destruct (C st) as [m1 ->]; simpl.
        destruct (Cs (m1, snd st)) as [m2 ->]. exists m2; reflexivity. }
  induction subdecl using Decl_nested_ind; intros W.
  - destruct (L decls H W) as [M C]. split.
    + intros m rw. apply M.
    + intros st. rewrite collect_subdecl_eq. apply (C (_, snd st)).
  - simpl in W. split.
    + intros m rw. simpl. rewrite W. reflexivity.
    + intros st. rewrite collect_subdecl_eq, W. exists (fst st). destruct st; reflexivity.
  - destruct (L decls H W) as [M C]. split.
    + intros m rw. apply M.
    + intros st. rewrite collect_subdecl_eq. apply C.
  - split; [reflexivity|]. intros [m rw]; exists m; reflexivity.
Qed.

Lemma without_main_decls fields decls :
  forallb without_main decls = true ->
  (forall m rewriter, match_usages m decls rewriter = Some rewriter) /\
  (forall st, exists m', collect fields decls st = Some (m', snd st)).
Proof.
  induction decls as [|d ds IH]; simpl; intros W.
  - split; [reflexivity|]. intros [m rw]; exists m; reflexivity.
  - apply andb_true_iff in W. destruct W as [Wd W].
    destruct (without_main_subdecl fields d Wd) as [M C]. destruct (IH W) as [Ms Cs].
    split.
    + intros m rw. rewrite M; simpl. apply Ms.
    + intros st. destruct (C st) as [m1 ->]; simpl.
      destruct (Cs (m1, snd st)) as [m2 ->]. exists m2; reflexivity.
Qed.


(** * The rewrite rules *)

Lemma top_stmt_is_rooted stmt parents top :
  top_stmt_within_compound stmt parents = Some top -> rooted parents = true.
Proof.
  revert stmt. induction parents as [|p up IH]; intros stmt; simpl; [discriminate|].
  destruct (isa_Expr p || isa_DeclStmt p) eqn:E; simpl; [apply IH | reflexivity].
Qed.

(** A read of a recorded field becomes a call of its getter. *)
Lemma member_read_rewritten m i base d parents rewriter :
  well_keyed m -> is_target m d -> rooted parents = true ->
  collect_stmt m (MemberExpr i base d) parents rewriter =
  Some (queue rewriter
          (ReplaceText (getRange i) (printPrettyOf base ++ "." ++ getterName d ++ "()"))).
Proof.
  intros W T R. rewrite collect_stmt_children. unfold rewrite_MemberExpr.
  rewrite for_each_match_once by assumption.
  destruct (top_stmt_rooted (MemberExpr i base d) parents R) as (top & p & up & -> & _).
  reflexivity.
Qed.

(** ** Unary operators other than increment and decrement *)

(** C1, as the code has it: under a unary operator that is neither an
    increment nor a decrement ([&obj.f], [*obj.f], [-obj.f], ...), the
    operator is kept and the member access of a recorded field is replaced
    by the call of its getter; this one [ReplaceText] is all that is
    queued. *)
Theorem non_increment_operand_becomes_getter_call
    m i opc mi base d parents rewriter :
  well_keyed m -> is_target m d -> rooted parents = true ->
  isIncrementDecrementOp opc = false ->
  collect_stmt m (UnaryOperator i opc (MemberExpr mi base d)) parents rewriter =
  Some (queue rewriter
          (ReplaceText (getRange mi) (printPrettyOf base ++ "." ++ getterName d ++ "()"))).
Proof.
  intros W T R N. rewrite collect_stmt_children. unfold rewrite_UnaryOperator.
  rewrite for_each_match_once by assumption.
  destruct (top_stmt_rooted (UnaryOperator i opc (MemberExpr mi base d)) parents R)
    as (top & p & up & -> & _).
  simpl. rewrite N. simpl negb. cbv iota.
  apply member_read_rewritten; auto using rooted_cons.
Qed.

Lemma non_increment_operand_becomes_getter_call_witness :
  collect_stmt Example.targets_fg Example.addr_of [Example.decl_p; Example.main_body] [] =
  Some [ReplaceText (mkRange 120 124) "obj.getF()"].
Proof.
  apply (non_increment_operand_becomes_getter_call
           Example.targets_fg (Example.node 119 124 "&obj.f") UO_AddrOf
           (Example.node 120 124 "obj.f") (Example.leaf 120 "obj") Example.f
           [Example.decl_p; Example.main_body] []).
  - split; repeat first [reflexivity | constructor].
  - unfold is_target; simpl; auto.
  - reflexivity.
  - reflexivity.
Defined.

(** C1, as the specification has it, fails on [int *p = &obj.f;] of the
    first unit: the queue does not stay empty, the operand [obj.f] at
    120..124 is replaced by [obj.getF()]. *)
Lemma address_of_operand_is_rewritten :
  collect_stmt [("Foo::f", Example.f)] Example.addr_of
    [Example.decl_p; Example.main_body] [] =
  Some [ReplaceText (getSourceRangeOf (Example.obj_f 120)) "obj.getF()"] /\
  collect_stmt [("Foo::f", Example.f)] Example.addr_of
    [Example.decl_p; Example.main_body] [] <> Some [].
Proof. split; [reflexivity | discriminate]. Qed.

(** * Field selection and usage matching are one traversal *)

(** C2, as the code has it: a body is scanned against the fields recorded
    so far.  When the unit is a run of declarations without a function
    named [main], from which [collect] records [m], followed by
    declarations whose records add nothing to [m], then [m] is the final
    set and every body is scanned against it: the traversal gives what
    usage matching against [m] over the whole unit gives. *)
Theorem usages_matched_against_settled_set fields pre post m :
  forallb without_main pre = true ->
  collect fields pre ([], []) = Some (m, []) ->
  settled m fields post ->
  collect fields (pre ++ post) ([], []) =
  (rewriter <- match_usages m (pre ++ post) [] ;; Some (m, rewriter)).
Proof.
  intros N C S. rewrite collect_app, C. simpl.
  rewrite collect_settled by assumption.
  rewrite match_usages_app.
  destruct (without_main_decls fields pre N) as [M _]. rewrite M. reflexivity.
Qed.

Lemma usages_matched_against_settled_set_witness :
  collect ["Foo::f"; "Foo::g"] Example.unit1 ([], []) =
  (rewriter <- match_usages Example.targets_fg Example.unit1 [] ;;
   Some (Example.targets_fg, rewriter)).
Proof.
  apply (usages_matched_against_settled_set ["Foo::f"; "Foo::g"]
           [RecordD [Example.f; Example.g]
              [RecordD [] []; OtherD; OtherD; FunctionD "Foo" None []];
            FunctionD "helper" (Some Example.helper_body) [OtherD]]
           [FunctionD "main" (Some Example.main_body)
              [OtherD; OtherD; OtherD; OtherD; OtherD; OtherD; OtherD]]
           Example.targets_fg).
  - reflexivity.
  - reflexivity.
  - simpl. repeat split.
Defined.

(** C2, as the specification has it, fails on the second unit: the body of
    [Outer::main] is scanned before [Inner] is visited, against the empty
    set, and [i.y = 1] is left alone; against the final set, which holds
    [Outer::Inner::y], it would have been replaced. *)
Lemma usage_matched_before_field_selected :
  collect ["Outer::Inner::y"] Example.unit2 ([], []) =
    Some ([("Outer::Inner::y", Example.y)], []) /\
  match_usages [("Outer::Inner::y", Example.y)] Example.unit2 [] =
    Some [ReplaceText (mkRange 40 46) "i.setY( 1 )"].
Proof. split; reflexivity. Qed.

(** * Compound assignment *)

(** X21: a compound assignment to a recorded field that lies under an
    expression or a declaration statement.  After the edits of scanning
    its right-hand side, the text [base.setter( base.getter() OP RHS );]
    is queued with [InsertTextBefore] at the start of the node the walk
    reaches, and the range of the assignment is replaced by
    [base.getter()].  The node the walk reaches is the outermost enclosing
    node whose parent is neither an expression nor a declaration
    statement: a statement of a block, or the expression that hangs under
    a [while], an [if] or a [return]. *)
Theorem compound_assignment_in_subexpression
    m i opc mi base d rhs p up top top_parents rewriter :
  well_keyed m -> is_target m d ->
  isCompoundAssignmentOp opc = true ->
  isa_Expr p || isa_DeclStmt p = true ->
  top_stmt_within_compound p up = Some (top, top_parents) ->
  let bin_op := BinaryOperator i opc (MemberExpr mi base d) rhs in
  let base_str := printPrettyOf base in
  exists inner,
    collect_stmt m rhs (bin_op :: p :: up) rewriter = Some (rewriter ++ inner)%list /\
    collect_stmt m bin_op (p :: up) rewriter =
    Some (rewriter ++ inner ++
          [InsertTextBefore (getLocStart top)
             (base_str ++ "." ++ setterName d ++ "( " ++
              base_str ++ "." ++ getterName d ++ "() " ++
              getOpcodeStr (getOpForCompoundAssignment opc) ++ " " ++
              printPrettyOf rhs ++ " );
");
           ReplaceText (getRange i) (base_str ++ "." ++ getterName d ++ "()")])%list.
Proof.
  intros W T C E Top bin_op base_str.
  assert (R : rooted (bin_op :: p :: up) = true).
  { apply rooted_cons, rooted_cons. eapply top_stmt_is_rooted; eassumption. }
  destruct (collect_stmt_extends m rhs _ R rewriter) as [inner Hrhs].
  exists inner. split; [exact Hrhs|].
  rewrite collect_stmt_children. unfold bin_op at 1. cbv iota.
  unfold rewrite_BinaryOperator.
  rewrite for_each_match_once by assumption.
  fold bin_op. rewrite (top_stmt_climb bin_op p up E), Top.
  cbn [bind fst snd]. rewrite C, (is_top_climbed p p up top top_parents Top).
  cbn [negb]. rewrite Hrhs. cbn [bind]. unfold queue, base_str.
  rewrite <- !app_assoc, !append_assoc. reflexivity.
Qed.

Lemma compound_assignment_in_subexpression_witness :
  exists inner,
    collect_stmt Example.targets_fg (Example.leaf 147 "3")
      [Example.add_assign; Example.paren_z; Example.cast_z; Example.decl_z;
       Example.main_body] [] = Some ([] ++ inner)%list /\
    collect_stmt Example.targets_fg Example.add_assign
      [Example.paren_z; Example.cast_z; Example.decl_z; Example.main_body] [] =
    Some ([] ++ inner ++
          [InsertTextBefore 129 "obj.setF( obj.getF() + 3 );
";
           ReplaceText (mkRange 138 147) "obj.getF()"])%list.
Proof.
  apply (compound_assignment_in_subexpression
           Example.targets_fg (Example.node 138 147 "obj.f += 3") BO_AddAssign
           (Example.node 138 142 "obj.f") (Example.leaf 138 "obj") Example.f
           (Example.leaf 147 "3") Example.paren_z
           [Example.cast_z; Example.decl_z; Example.main_body]
           Example.decl_z [Example.main_body] []).
  - split; repeat first [reflexivity | constructor].
  - unfold is_target; simpl; auto.
  - reflexivity.
  - reflexivity.
  - reflexivity.
Defined.

(** * Simple assignment *)

(** What [rewrite] queues for a simple assignment to a recorded field,
    wherever the assignment stands: the edits of scanning the right-hand
    side, then one replacement of the whole assignment by
    [base.setter( RHS )], with the right-hand side as [printPretty]
    renders the node. *)
Lemma simple_assignment_rewritten m i mi base d rhs parents rewriter :
  well_keyed m -> is_target m d -> rooted parents = true ->
  let bin_op := BinaryOperator i BO_Assign (MemberExpr mi base d) rhs in
  exists inner,
    collect_stmt m rhs (bin_op :: parents) rewriter = Some (rewriter ++ inner)%list /\
    collect_stmt m bin_op parents rewriter =
    Some (rewriter ++ inner ++
          [ReplaceText (getRange i)
             (printPrettyOf base ++ "." ++ setterName d ++ "( " ++
              printPrettyOf rhs ++ " )")])%list.
Proof.
  intros W T R bin_op.
  destruct (collect_stmt_extends m rhs _ (rooted_cons bin_op _ R) rewriter)
    as [inner Hrhs].
  exists inner. split; [exact Hrhs|].
  rewrite collect_stmt_children. unfold bin_op at 1. cbv iota.
  unfold rewrite_BinaryOperator.
  rewrite for_each_match_once by assumption.
  fold bin_op.
  destruct (top_stmt_rooted bin_op parents R) as (top & p & up & -> & _).
  cbn [bind fst snd isCompoundAssignmentOp isAssign]. rewrite Hrhs. cbn [bind].
  unfold queue. rewrite <- !app_assoc, !append_assoc. reflexivity.
Qed.

(** C10: a simple assignment to a recorded field used inside a larger
    statement (its parent is an expression or a declaration statement) is
    replaced in place by the setter call, exactly as at statement level:
    beyond the edits of scanning its right-hand side nothing else is
    queued, no statement is inserted. *)
Theorem simple_assignment_in_subexpression
    m i mi base d rhs p up rewriter :
  well_keyed m -> is_target m d -> rooted up = true ->
  isa_Expr p || isa_DeclStmt p = true ->
  let bin_op := BinaryOperator i BO_Assign (MemberExpr mi base d) rhs in
  exists inner,
    collect_stmt m rhs (bin_op :: p :: up) rewriter = Some (rewriter ++ inner)%list /\
    collect_stmt m bin_op (p :: up) rewriter =
    Some (rewriter ++ inner ++
          [ReplaceText (getRange i)
             (printPrettyOf base ++ "." ++ setterName d ++ "( " ++
              printPrettyOf rhs ++ " )")])%list.
Proof.
  intros W T R _. apply simple_assignment_rewritten; auto using rooted_cons.
Qed.

Lemma simple_assignment_in_subexpression_witness :
  exists inner,
    collect_stmt Example.targets_fg (Example.leaf 247 "5")
      [Example.assign_5; Example.paren_y; Example.cast_y; Example.decl_y;
       Example.main_body] [] = Some ([] ++ inner)%list /\
    collect_stmt Example.targets_fg Example.assign_5
      [Example.paren_y; Example.cast_y; Example.decl_y; Example.main_body] [] =
    Some ([] ++ inner ++ [ReplaceText (mkRange 239 247) "obj.setF( 5 )"])%list.
Proof.
  apply (simple_assignment_in_subexpression
           Example.targets_fg (Example.node 239 247 "obj.f = 5")
           (Example.node 239 243 "obj.f") (Example.leaf 239 "obj") Example.f
           (Example.leaf 247 "5") Example.paren_y
           [Example.cast_y; Example.decl_y; Example.main_body] []).
  - split; repeat first [reflexivity | constructor].
  - unfold is_target; simpl; auto.
  - reflexivity.
  - reflexivity.
Defined.

(** C4 on [obj.f = obj.g;] of the first unit, with both fields recorded:
    scanning the right-hand side queues the replacement of [obj.g] at
    161..165 by [obj.getG()]; the replacement of the whole assignment at
    153..165, queued after it, carries the right-hand side as
    [printPretty] renders the unchanged node, [obj.g]. *)
Theorem assignment_carries_unrewritten_rhs :
  collect_stmt Example.targets_fg Example.assign_fg [Example.main_body] [] =
  Some [ReplaceText (mkRange 161 165) "obj.getG()";
        ReplaceText (mkRange 153 165) "obj.setF( obj.g )"].
Proof. reflexivity. Qed.

(** * Increment and decrement *)

(** X22: an increment or decrement of a recorded field that lies under
    an expression or a declaration statement.  The setter call is queued
    with [InsertTextBefore] at [getLocStart] of the node the walk reaches
    for the prefix operators and with [InsertTextAfter] at its
    [getLocEnd], where its last token starts, for the postfix ones; around
    it come the two brace edits when the parent of that node is not a
    compound statement.  Nothing else is queued: the operator expression
    itself gets no edit. *)
Theorem increment_insertion_side
    m i opc mi base d p up top top_parent top_up rewriter :
  well_keyed m -> is_target m d ->
  isIncrementDecrementOp opc = true ->
  isa_Expr p || isa_DeclStmt p = true ->
  top_stmt_within_compound p up = Some (top, top_parent :: top_up) ->
  let un_op := UnaryOperator i opc (MemberExpr mi base d) in
  let base_str := printPrettyOf base in
  let call :=
    base_str ++ "." ++ setterName d ++ "( " ++
    base_str ++ "." ++ getterName d ++ "() " ++
    (if isIncrementOp opc then "+" else "-") ++ " 1)" in
  let braces := negb (isa_CompoundStmt top_parent) in
  collect_stmt m un_op (p :: up) rewriter =
  Some (rewriter ++
        (if braces then [InsertTextBefore (getLocStart top) "{
"] else []) ++
        [if isPrefix opc
         then InsertTextBefore (getLocStart top) (call ++ ";
")
         else InsertTextAfter (getLocEnd top) (";
" ++ call)] ++
        (if braces then [InsertTextAfter (getLocStart top) "}
"] else []))%list.
Proof.
  intros W T I E Top un_op base_str call braces.
  rewrite collect_stmt_children. unfold un_op at 1. cbv iota.
  unfold rewrite_UnaryOperator.
  rewrite for_each_match_once by assumption.
  fold un_op. rewrite (top_stmt_climb un_op p up E), Top.
  cbn [bind fst snd]. rewrite I, (is_top_climbed p p up top _ Top).
  cbn [negb bind]. rewrite andb_true_r. fold braces. unfold queue.
  fold base_str. fold call.
  destruct braces; destruct (isPrefix opc); cbn [app];
    rewrite <- ?app_assoc; reflexivity.
Qed.

Lemma increment_insertion_side_witness :
  collect_stmt Example.targets_fg Example.pre_inc
    [Example.cast_a; Example.decl_a; Example.main_body] [] =
    Some [InsertTextBefore 170 "obj.setF( obj.getF() + 1);
"] /\
  collect_stmt Example.targets_fg Example.post_inc
    [Example.decl_b; Example.main_body] [] =
    Some [InsertTextAfter 204 ";
obj.setF( obj.getF() + 1)"].
Proof.
  split.
  - apply (increment_insertion_side
             Example.targets_fg (Example.node 178 184 "++obj.f") UO_PreInc
             (Example.node 180 184 "obj.f") (Example.leaf 180 "obj") Example.f
             Example.cast_a [Example.decl_a; Example.main_body]
             Example.decl_a Example.main_body [] []).
    + split; repeat first [reflexivity | constructor].
    + unfold is_target; simpl; auto.
    + reflexivity.
    + reflexivity.
    + reflexivity.
  - apply (increment_insertion_side
             Example.targets_fg (Example.node 197 202 "obj.f++") UO_PostInc
             (Example.node 197 201 "obj.f") (Example.leaf 197 "obj") Example.f
             Example.decl_b [Example.main_body]
             Example.decl_b Example.main_body [] []).
    + split; repeat first [reflexivity | constructor].
    + unfold is_target; simpl; auto.
    + reflexivity.
    + reflexivity.
    + reflexivity.
Defined.

(** C6 on [if (c) c = ++obj.f;] of the first unit.  The top statement is
    the assignment [c = ++obj.f], from 215 to its last token at 225, and
    its parent is the [if].  The opening brace and the setter call are
    queued at 215; the closing brace is queued at 215 as well, the start
    of the statement, not after its end. *)
Theorem closing_brace_queued_at_statement_start :
  top_stmt_within_compound Example.inc_in_if
    [Example.cast_in_if; Example.assign_c; Example.if_c; Example.main_body] =
    Some (Example.assign_c, [Example.if_c; Example.main_body]) /\
  getLocStart Example.assign_c = 215 /\
  getLocEnd Example.assign_c = 225 /\
  collect_stmt Example.targets_fg Example.inc_in_if
    [Example.cast_in_if; Example.assign_c; Example.if_c; Example.main_body] [] =
  Some [InsertTextBefore 215 "{
";
        InsertTextBefore 215 "obj.setF( obj.getF() + 1);
";
        InsertTextAfter 215 "}
"].
Proof. repeat split. Qed.

(** * Functions other than main *)

(** C7: a function whose name is not [main] contributes nothing: the
    traversal of a context gives the same [fieldRanges] and the same queue
    as without that function, whatever its body and the declarations
    inside it. *)
Theorem only_main_is_scanned fields name body decls pre post st :
  name <> "main" ->
  collect fields (pre ++ FunctionD name body decls :: post) st =
  collect fields (pre ++ post) st.
Proof.
  intros N. rewrite !collect_app.
  destruct (collect fields pre st) as [s|]; cbn [bind]; [|reflexivity].
  change (collect fields (FunctionD name body decls :: post) s)
    with (s' <- collect_subdecl fields (FunctionD name body decls) s ;;
          collect fields post s').
  rewrite collect_subdecl_eq.
  apply String.eqb_neq in N. rewrite N. reflexivity.
Qed.

Lemma only_main_is_scanned_witness :
  collect ["Foo::f"; "Foo::g"] Example.unit1 ([], []) =
  collect ["Foo::f"; "Foo::g"]
    [RecordD [Example.f; Example.g]
       [RecordD [] []; OtherD; OtherD; FunctionD "Foo" None []];
     FunctionD "main" (Some Example.main_body)
       [OtherD; OtherD; OtherD; OtherD; OtherD; OtherD; OtherD]] ([], []).
Proof.
  apply (only_main_is_scanned ["Foo::f"; "Foo::g"] "helper"
           (Some Example.helper_body) [OtherD]
           [RecordD [Example.f; Example.g]
              [RecordD [] []; OtherD; OtherD; FunctionD "Foo" None []]]
           [FunctionD "main" (Some Example.main_body)
              [OtherD; OtherD; OtherD; OtherD; OtherD; OtherD; OtherD]]
           ([], [])).
  discriminate.
Defined.

(** * Where the accessors go *)

(** Without a user-provided method the block goes before the closing
    brace of the record. *)
Lemma accessors_before_closing_brace field rewriter :
  existsb isUserProvided (methods (getParent field)) = false ->
  replace_field field rewriter =
  Some (queue rewriter
          (InsertTextBefore (getRBraceLoc (getParent field)) (accessors field))).
Proof. intros H. unfold replace_field. rewrite H. reflexivity. Qed.

Lemma last_method_loop_ends before last loc :
  isUserProvided last = true ->
  last_method_loop (before ++ [last]) loc = Some (getEnd (getSourceRange last)).
Proof.
  intros U. revert loc. induction before as [|a before IH]; intros loc; simpl.
  - rewrite U. reflexivity.
  - destruct (isUserProvided a); simpl; [|apply IH].
    destruct (before ++ [last])%list eqn:E; [destruct before; discriminate|].
    apply IH.
Qed.

(** When the last method is user-provided the block goes after its end. *)
Lemma accessors_after_last_method field before last rewriter :
  methods (getParent field) = (before ++ [last])%list ->
  isUserProvided last = true ->
  replace_field field rewriter =
  Some (queue rewriter
          (InsertTextAfterToken (getEnd (getSourceRange last)) (accessors field))).
Proof.
  intros M U. unfold replace_field. rewrite M.
  rewrite existsb_app. simpl. rewrite U, orb_true_r. simpl.
  rewrite last_method_loop_ends by assumption. reflexivity.
Qed.

(** When the last method is not user-provided the loop goes on past it
    and reads through [method_end()]. *)
Lemma last_method_loop_overruns before last loc :
  isUserProvided last = false ->
  last_method_loop (before ++ [last]) loc = None.
Proof.
  intros U. revert loc. induction before as [|a before IH]; intros loc; simpl.
  - rewrite U. reflexivity.
  - destruct (isUserProvided a); simpl; [|apply IH].
    destruct (before ++ [last])%list eqn:E; [destruct before; discriminate|].
    apply IH.
Qed.

(** C8 on the third unit: [Counter] declares the user-provided [reset];
    the default constructor that [Counter c;] makes the compiler declare
    follows it among the methods and is not user-provided.  The loop that
    looks for the last user-provided method steps past the constructor to
    [method_end()] and reads through it; no insertion after the end of
    [reset], at 50, is queued. *)
Theorem accessor_placement_overruns_methods :
  map isUserProvided (methods (getParent Example.n)) = [true; false] /\
  collect ["Counter::n"] Example.unit3 ([], []) =
    Some ([("Counter::n", Example.n)], []) /\
  last_method_loop (methods (getParent Example.n)) 0 = None /\
  replace [("Counter::n", Example.n)] [] = None /\
  HandleTranslationUnit ["Counter::n"] Example.unit3 = None.
Proof. repeat split. Qed.

(** * The accessors *)

Lemma replace_field_placeable field rewriter :
  placeable (getParent field) = true ->
  exists edit,
    replace_field field rewriter = Some (queue rewriter edit) /\
    (edit = InsertTextBefore (getRBraceLoc (getParent field)) (accessors field) \/
     exists last,
       In last (methods (getParent field)) /\
       edit = InsertTextAfterToken (getEnd (getSourceRange last)) (accessors field)).
Proof.
  unfold placeable. intros P.
  destruct (existsb isUserProvided (methods (getParent field))) eqn:E.
  - simpl in P. destruct (rev (methods (getParent field))) as [|last r] eqn:Rv;
      [discriminate|].
    assert (M : methods (getParent field) = (rev r ++ [last])%list).
    { rewrite <- (rev_involutive (methods (getParent field))), Rv. reflexivity. }
    eexists. split; [eapply accessors_after_last_method; eassumption|].
    right. exists last. split; [|reflexivity].
    rewrite M. apply in_or_app. right. left. reflexivity.
  - eexists. split; [apply accessors_before_closing_brace; assumption|].
    left. reflexivity.
Qed.


(** * Further rewrite rules *)

(** X1: a member access of a recorded field that no [rewrite] overload
    took as an operand is replaced, over its own range, by the call of the
    getter on the same base. *)
Theorem plain_read_becomes_getter_call m i base d parents rewriter :
  well_keyed m -> is_target m d -> rooted parents = true ->
  collect_stmt m (MemberExpr i base d) parents rewriter =
  Some (rewriter ++
        [ReplaceText (getRange i) (printPrettyOf base ++ "." ++ getterName d ++ "()")])%list.
Proof.
  intros W T R. rewrite collect_stmt_children. cbv iota. unfold rewrite_MemberExpr.
  rewrite for_each_match_once by assumption.
  destruct (top_stmt_rooted (MemberExpr i base d) parents R) as (top & p & up & -> & _).
  reflexivity.
Qed.

Lemma plain_read_becomes_getter_call_witness :
  collect_stmt Example.targets_fg (Example.obj_g 161)
    [Example.cast_g; Example.assign_fg; Example.main_body] [] =
  Some ([] ++ [ReplaceText (mkRange 161 165) "obj.getG()"])%list.
Proof.
  apply (plain_read_becomes_getter_call Example.targets_fg
           (Example.node 161 165 "obj.g") (Example.leaf 161 "obj") Example.g
           [Example.cast_g; Example.assign_fg; Example.main_body] []).
  - split; repeat first [reflexivity | constructor].
  - unfold is_target; simpl; auto.
  - reflexivity.
Defined.

(** X2: a compound assignment to a recorded field that is itself the top
    statement (its parent is neither an expression nor a declaration
    statement) is replaced in place by
    [base.setter( base.getter() OP RHS )]; nothing is inserted. *)
Theorem compound_assignment_at_statement_level
    m i opc mi base d rhs p up rewriter :
  well_keyed m -> is_target m d ->
  isCompoundAssignmentOp opc = true ->
  isa_Expr p || isa_DeclStmt p = false ->
  let bin_op := BinaryOperator i opc (MemberExpr mi base d) rhs in
  let base_str := printPrettyOf base in
  exists inner,
    collect_stmt m rhs (bin_op :: p :: up) rewriter = Some (rewriter ++ inner)%list /\
    collect_stmt m bin_op (p :: up) rewriter =
    Some (rewriter ++ inner ++
          [ReplaceText (getRange i)
             (base_str ++ "." ++ setterName d ++ "( " ++
              base_str ++ "." ++ getterName d ++ "() " ++
              getOpcodeStr (getOpForCompoundAssignment opc) ++ " " ++
              printPrettyOf rhs ++ " )")])%list.
Proof.
  intros W T C E bin_op base_str.
  assert (R : rooted (bin_op :: p :: up) = true).
  { apply rooted_cons. unfold rooted; simpl. rewrite E. reflexivity. }
  destruct (collect_stmt_extends m rhs _ R rewriter) as [inner Hrhs].
  exists inner. split; [exact Hrhs|].
  rewrite collect_stmt_children. unfold bin_op at 1. cbv iota.
  unfold rewrite_BinaryOperator.
  rewrite for_each_match_once by assumption.
  fold bin_op. rewrite (top_stmt_stop bin_op p up E).
  cbn [bind fst snd]. rewrite C, is_top_refl.
  cbn [negb]. rewrite Hrhs. cbn [bind]. unfold queue, base_str.
  rewrite <- !app_assoc, !append_assoc. reflexivity.
Qed.

Lemma compound_assignment_at_statement_level_witness :
  exists inner,
    collect_stmt Example.targets_fg (Example.leaf 147 "3")
      [Example.add_assign; Example.main_body] [] = Some ([] ++ inner)%list /\
    collect_stmt Example.targets_fg Example.add_assign [Example.main_body] [] =
    Some ([] ++ inner ++
          [ReplaceText (mkRange 138 147) "obj.setF( obj.getF() + 3 )"])%list.
Proof.
  apply (compound_assignment_at_statement_level
           Example.targets_fg (Example.node 138 147 "obj.f += 3") BO_AddAssign
           (Example.node 138 142 "obj.f") (Example.leaf 138 "obj") Example.f
           (Example.leaf 147 "3") Example.main_body [] []).
  - split; repeat first [reflexivity | constructor].
  - unfold is_target; simpl; auto.
  - reflexivity.
  - reflexivity.
Defined.

(** X3: an increment or decrement of a recorded field that is itself the
    top statement is replaced in place by
    [base.setter( base.getter() + 1)] (or [- 1]); this is the only edit,
    no brace is queued even when the parent is not a compound statement. *)
Theorem increment_at_statement_level m i opc mi base d p up rewriter :
  well_keyed m -> is_target m d ->
  isIncrementDecrementOp opc = true ->
  isa_Expr p || isa_DeclStmt p = false ->
  let base_str := printPrettyOf base in
  collect_stmt m (UnaryOperator i opc (MemberExpr mi base d)) (p :: up) rewriter =
  Some (rewriter ++
        [ReplaceText (getRange i)
           (base_str ++ "." ++ setterName d ++ "( " ++
            base_str ++ "." ++ getterName d ++ "() " ++
            (if isIncrementOp opc then "+" else "-") ++ " 1)")])%list.
Proof.
  intros W T I E base_str.
  rewrite collect_stmt_children. cbv iota.
  unfold rewrite_UnaryOperator.
  rewrite for_each_match_once by assumption.
  rewrite (top_stmt_stop _ p up E).
  cbn [bind fst snd]. rewrite I, is_top_refl.
  cbn [negb bind]. rewrite andb_false_r. reflexivity.
Qed.

Lemma increment_at_statement_level_witness :
  collect_stmt Example.targets_fg Example.post_inc [Example.if_c; Example.main_body] [] =
  Some ([] ++ [ReplaceText (mkRange 197 202) "obj.setF( obj.getF() + 1)"])%list.
Proof.
  apply (increment_at_statement_level
           Example.targets_fg (Example.node 197 202 "obj.f++") UO_PostInc
           (Example.node 197 201 "obj.f") (Example.leaf 197 "obj") Example.f
           Example.if_c [Example.main_body] []).
  - split; repeat first [reflexivity | constructor].
  - unfold is_target; simpl; auto.
  - reflexivity.
  - reflexivity.
Defined.

(** * What is left unscanned *)

Lemma for_each_match_skip m d body rewriter :
  (forall r, body r = Some r) -> for_each_match m d body rewriter = Some rewriter.
Proof.
  intros B. induction m as [|[k v] m IH]; simpl; [reflexivity|].
  destruct (FieldDecl_eq_dec d v); [rewrite B; simpl|]; exact IH.
Qed.

Lemma recorded_is_target m d : recorded m d = false -> ~ is_target m d.
Proof.
  unfold recorded, is_target. intros R I.
  apply in_map_iff in I. destruct I as (e & E & I).
  assert (X : existsb (fun e => if FieldDecl_eq_dec d (snd e) then true else false) m = true).
  { apply existsb_exists. exists e. split; [assumption|].
    destruct (FieldDecl_eq_dec d (snd e)); congruence. }
  congruence.
Qed.

(** X4: a binary operator whose left operand is a member access of a
    declaration that is not recorded queues nothing, whatever the operator
    and the parents: neither operand is scanned, so a recorded field on
    the right-hand side stays as it is. *)
Theorem binary_operator_on_other_member_is_skipped
    m i opc mi base d rhs parents rewriter :
  ~ is_target m d ->
  collect_stmt m (BinaryOperator i opc (MemberExpr mi base d) rhs) parents rewriter =
  Some rewriter.
Proof.
  intros N. rewrite collect_stmt_children. cbv iota.
  unfold rewrite_BinaryOperator. apply for_each_match_none. assumption.
Qed.

Lemma binary_operator_on_other_member_is_skipped_witness :
  collect_stmt [("Foo::f", Example.f)]
    (BinaryOperator (Example.node 153 165 "obj.g = obj.f") BO_Assign
       (Example.obj_g 153) (Example.wrap 161 165 "obj.f" (Example.obj_f 161)))
    [Example.main_body] [] = Some [].
Proof.
  apply (binary_operator_on_other_member_is_skipped [("Foo::f", Example.f)]
           (Example.node 153 165 "obj.g = obj.f") BO_Assign
           (Example.node 153 157 "obj.g") (Example.leaf 153 "obj") Example.g
           (Example.wrap 161 165 "obj.f" (Example.obj_f 161))
           [Example.main_body] []).
  unfold is_target; simpl. intros [H|[]]. discriminate H.
Defined.

(** X5: a binary operator whose left operand is a member access and that
    is neither a simple nor a compound assignment (a comma, a comparison,
    an arithmetic operator) queues nothing and scans neither operand, even
    when the member is a recorded field. *)
Theorem non_assignment_on_member_is_skipped
    m i opc mi base d rhs parents rewriter :
  rooted parents = true ->
  isCompoundAssignmentOp opc = false -> isAssign opc = false ->
  collect_stmt m (BinaryOperator i opc (MemberExpr mi base d) rhs) parents rewriter =
  Some rewriter.
Proof.
  intros R C A. rewrite collect_stmt_children. cbv iota.
  unfold rewrite_BinaryOperator. apply for_each_match_skip. intros r.
  destruct (top_stmt_rooted (BinaryOperator i opc (MemberExpr mi base d) rhs) parents R)
    as (top & p & up & -> & _).
  cbn [bind]. rewrite C, A. reflexivity.
Qed.

Lemma non_assignment_on_member_is_skipped_witness :
  collect_stmt Example.targets_fg
    (BinaryOperator (Example.node 153 165 "obj.f , obj.g") BO_Comma
       (Example.obj_f 153) (Example.obj_g 161))
    [Example.main_body] [] = Some [].
Proof.
  apply (non_assignment_on_member_is_skipped Example.targets_fg
           (Example.node 153 165 "obj.f , obj.g") BO_Comma
           (Example.node 153 157 "obj.f") (Example.leaf 153 "obj") Example.f
           (Example.obj_g 161) [Example.main_body] []);
    reflexivity.
Defined.

(** X6: a member access of a declaration that is not recorded queues
    nothing and its base is not scanned: in [obj.f.k], with [k] not
    recorded, a recorded [f] stays as it is. *)
Theorem base_of_other_member_is_skipped m i base d parents rewriter :
  ~ is_target m d ->
  collect_stmt m (MemberExpr i base d) parents rewriter = Some rewriter.
Proof.
  intros N. rewrite collect_stmt_children. cbv iota.
  unfold rewrite_MemberExpr. apply for_each_match_none. assumption.
Qed.

Lemma base_of_other_member_is_skipped_witness :
  collect_stmt [("Foo::f", Example.f)]
    (MemberExpr (Example.node 153 159 "obj.f.g") (Example.obj_f 153) Example.g)
    [Example.main_body] [] = Some [].
Proof.
  apply (base_of_other_member_is_skipped [("Foo::f", Example.f)]
           (Example.node 153 159 "obj.f.g") (Example.obj_f 153) Example.g
           [Example.main_body] []).
  unfold is_target; simpl. intros [H|[]]. discriminate H.
Defined.

(** X7: when the operand of a unary operator is a recorded member access
    inside a generic expression (parentheses, a cast), the operator is not
    rewritten, be it an increment or a decrement: the only edit replaces
    the member access by the call of the getter. *)
Theorem wrapped_operand_becomes_getter_call
    m i opc wi mi base d parents rewriter :
  well_keyed m -> is_target m d -> rooted parents = true ->
  collect_stmt m (UnaryOperator i opc (OtherExpr wi [Some (MemberExpr mi base d)]))
    parents rewriter =
  Some (rewriter ++
        [ReplaceText (getRange mi) (printPrettyOf base ++ "." ++ getterName d ++ "()")])%list.
Proof.
  intros W T R. rewrite collect_stmt_children. cbv iota.
  unfold rewrite_UnaryOperator. rewrite collect_stmt_children. cbv iota.
  cbn [collect_children].
  rewrite member_read_rewritten by auto using rooted_cons. reflexivity.
Qed.

Lemma wrapped_operand_becomes_getter_call_witness :
  collect_stmt Example.targets_fg
    (UnaryOperator (Example.node 178 186 "++(obj.f)") UO_PreInc
       (OtherExpr (Example.node 180 186 "(obj.f)") [Some (Example.obj_f 181)]))
    [Example.main_body] [] =
  Some ([] ++ [ReplaceText (mkRange 181 185) "obj.getF()"])%list.
Proof.
  apply (wrapped_operand_becomes_getter_call Example.targets_fg
           (Example.node 178 186 "++(obj.f)") UO_PreInc
           (Example.node 180 186 "(obj.f)") (Example.node 181 185 "obj.f")
           (Example.leaf 181 "obj") Example.f [Example.main_body] []).
  - split; repeat first [reflexivity | constructor].
  - unfold is_target; simpl; auto.
  - reflexivity.
Defined.

Lemma mentions_children_none m children parents :
  Forall (P_child (fun s => forall parents rewriter, mentions m s = false ->
                              collect_stmt m s parents rewriter = Some rewriter)) children ->
  forall rewriter, mentions_children m children = false ->
    collect_children m children parents rewriter = Some rewriter.
Proof.
  intros F. induction F as [|[c|] cs Hc F IH]; simpl; intros rw M.
  - reflexivity.
  - apply orb_false_iff in M. destruct M as [Mc Ms].
    rewrite (Hc parents rw Mc). simpl. apply IH; assumption.
  - apply IH; assumption.
Qed.

Lemma collect_stmt_unmentioned m stmt :
  forall parents rewriter,
    mentions m stmt = false -> collect_stmt m stmt parents rewriter = Some rewriter.
Proof.
  induction stmt using Stmt_nested_ind; intros parents rw M;
    rewrite collect_stmt_children; cbv iota.
  - simpl in M. apply orb_false_iff in M. destruct M as [Ml Mr].
    unfold rewrite_BinaryOperator. destruct stmt1;
      try (rewrite (IHstmt1 _ rw Ml); simpl; apply IHstmt2; assumption).
    apply for_each_match_none, recorded_is_target.
    simpl in Ml. apply orb_false_iff in Ml. tauto.
  - simpl in M. unfold rewrite_UnaryOperator. destruct stmt;
      try (apply IHstmt; assumption).
    apply for_each_match_none, recorded_is_target.
    simpl in M. apply orb_false_iff in M. tauto.
  - simpl in M. apply orb_false_iff in M. destruct M as [Md _].
    unfold rewrite_MemberExpr. apply for_each_match_none, recorded_is_target. assumption.
  - apply mentions_children_none; assumption.
  - apply mentions_children_none; assumption.
  - apply mentions_children_none; assumption.
  - apply mentions_children_none; assumption.
Qed.

(** X8: a statement in which no member access names a recorded field is
    scanned without a failure and without an edit, under any parents. *)
Theorem statement_without_target_is_untouched m stmt parents rewriter :
  mentions m stmt = false -> collect_stmt m stmt parents rewriter = Some rewriter.
Proof. apply collect_stmt_unmentioned. Qed.

Lemma statement_without_target_is_untouched_witness :
  collect_stmt [("Outer::Inner::y", Example.y)] Example.main_body [] [] = Some [].
Proof.
  apply (statement_without_target_is_untouched
           [("Outer::Inner::y", Example.y)] Example.main_body [] []).
  reflexivity.
Defined.

(** * The walk to the top statement, in full *)

(** X9: the walk fails exactly when no ancestor is a statement other than
    a declaration statement, that is when it would ask for the parent of
    the root. *)
Theorem top_stmt_fails_without_root stmt parents :
  top_stmt_within_compound stmt parents = None <-> rooted parents = false.
Proof.
  split.
  - intros H. destruct (rooted parents) eqn:R; [|reflexivity].
    destruct (top_stmt_rooted stmt parents R) as (t & p & up & E & _). congruence.
  - intros R. destruct (top_stmt_within_compound stmt parents) as [t|] eqn:E;
      [|reflexivity].
    apply top_stmt_is_rooted in E. congruence.
Qed.

(** X10: where the walk ends.  The parents it passed are all expressions
    or declaration statements, the parent of the statement it reached is
    neither, and from that statement the walk does not move. *)
Theorem top_stmt_reached stmt parents top top_parents :
  top_stmt_within_compound stmt parents = Some (top, top_parents) ->
  exists passed p up,
    parents = (passed ++ top_parents)%list /\
    top_parents = p :: up /\
    Forall (fun a => isa_Expr a || isa_DeclStmt a = true) passed /\
    isa_Expr p || isa_DeclStmt p = false /\
    top = last passed stmt /\
    top_stmt_within_compound top top_parents = Some (top, top_parents).
Proof.
  revert stmt. induction parents as [|a parents IH]; intros stmt; simpl; [discriminate|].
  destruct (isa_Expr a || isa_DeclStmt a) eqn:E.
  - intros H. destruct (IH a H) as (passed & p & up & -> & Tp & F & Ep & L & I).
    exists (a :: passed), p, up. repeat split; auto.
    rewrite L. destruct passed as [|b passed]; [reflexivity|].
    change (last (a :: b :: passed) stmt) with (last (b :: passed) stmt).
    clear. revert b. induction passed as [|c passed IHp]; intros b; [reflexivity|].
    change (last (b :: c :: passed) a) with (last (c :: passed) a).
    change (last (b :: c :: passed) stmt) with (last (c :: passed) stmt).
    apply IHp.
  - intros H. inversion H; subst.
    exists [], a, parents. repeat split; auto.
    simpl. rewrite E. reflexivity.
Qed.

Lemma top_stmt_reached_witness :
  exists passed p up,
    [Example.paren_z; Example.cast_z; Example.decl_z; Example.main_body] =
      (passed ++ [Example.main_body])%list /\
    [Example.main_body] = p :: up /\
    Forall (fun a => isa_Expr a || isa_DeclStmt a = true) passed /\
    isa_Expr p || isa_DeclStmt p = false /\
    Example.decl_z = last passed Example.add_assign /\
    top_stmt_within_compound Example.decl_z [Example.main_body] =
      Some (Example.decl_z, [Example.main_body]).
Proof.
  apply (top_stmt_reached Example.add_assign
           [Example.paren_z; Example.cast_z; Example.decl_z; Example.main_body]
           Example.decl_z [Example.main_body]).
  reflexivity.
Defined.

(** X11: scanning the body of a function, when the body is a statement
    other than a declaration statement (a compound statement, a try
    block), never fails, whatever is recorded, and leaves the edits
    already queued in place in front of the ones it adds. *)
Theorem function_body_scan_succeeds m body rewriter :
  isa_Expr body || isa_DeclStmt body = false ->
  exists new, collect_stmt m body [] rewriter = Some (rewriter ++ new)%list.
Proof.
  intros B.
  assert (R : rooted [body] = true) by (unfold rooted; simpl; rewrite B; reflexivity).
  assert (F : forall cs, Forall (P_child (fun s => forall parents, rooted parents = true ->
                                    extends (collect_stmt m s parents))) cs).
  { induction cs as [|[c|] cs IH]; constructor; simpl; auto.
    intros parents Rp. apply collect_stmt_extends; assumption. }
  rewrite collect_stmt_children.
  destruct body; try discriminate B;
    apply (collect_children_extends m children _ (F children) R rewriter).
Qed.

Lemma function_body_scan_succeeds_witness :
  exists new,
    collect_stmt Example.targets_fg Example.main_body [] [] = Some ([] ++ new)%list.
Proof.
  apply (function_body_scan_succeeds Example.targets_fg Example.main_body []).
  reflexivity.
Defined.

(** * What the traversal records *)

Lemma visited_fields_subdecl_eq subdecl :
  visited_fields_subdecl subdecl =
  match subdecl with
  | RecordD members decls => (members ++ visited_fields decls)%list
  | FunctionD name _ decls =>
      if String.eqb name "main" then visited_fields decls else []
  | ContextD decls => visited_fields decls
  | OtherD => []
  end.
Proof. destruct subdecl; reflexivity. Qed.

(** Whatever the loop over the fields of a record keeps, the traversal
    keeps. *)
Lemma collect_preserves fields (I : FieldRanges -> Prop) :
  (forall members m, I m -> I (collect_fields fields members m)) ->
  forall decls st st',
    collect fields decls st = Some st' -> I (fst st) -> I (fst st').
Proof.
  intros HI.
  assert (L : forall decls,
    Forall (fun d => forall st st', collect_subdecl fields d st = Some st' ->
                       I (fst st) -> I (fst st')) decls ->
    forall st st', collect fields decls st = Some st' -> I (fst st) -> I (fst st')).
  { intros decls F. induction F as [|d ds Hd F IH]; simpl; intros st st' H W.
    - inversion H; subst; assumption.
    - destruct (collect_subdecl fields d st) as [s1|] eqn:E; simpl in H; [|discriminate].
      eapply IH; eauto. }
  assert (S : forall d st st', collect_subdecl fields d st = Some st' ->
                               I (fst st) -> I (fst st')).
  { induction d using Decl_nested_ind; intros st st'; rewrite collect_subdecl_eq.
    - intros C W. apply (L decls H _ _ C). simpl. apply HI; assumption.
    - destruct (negb (name =? "main")).
      + intros C W; inversion C; subst; assumption.
      + destruct body as [b|]; simpl.
        * destruct (collect_stmt (fst st) b [] (snd st)) as [rw|]; simpl; [|discriminate].
          intros C W. apply (L decls H _ _ C). assumption.
        * intros C W. apply (L decls H _ _ C). assumption.
    - intros C W. apply (L decls H _ _ C). assumption.
    - intros C W; inversion C; subst; assumption. }
  intros decls. apply L. apply Forall_forall. intros d _. apply S.
Qed.

Lemma assign_keeps (Q : string * FieldDecl -> Prop) key value m :
  Q (key, value) -> Forall Q m -> Forall Q (assign key value m).
Proof.
  intros Qk F. apply Forall_forall. intros e He.
  destruct (assign_In _ _ _ _ He) as [->|He']; [assumption|].
  rewrite Forall_forall in F; auto.
Qed.

Lemma collect_fields_configured fields members m :
  Forall (fun e => configured fields (fst e) = true) m ->
  Forall (fun e => configured fields (fst e) = true) (collect_fields fields members m).
Proof.
  unfold collect_fields. revert m.
  induction members as [|f members IH]; intros m F; simpl; [assumption|].
  apply IH. destruct (configured fields (getQualifiedNameAsString f)) eqn:C;
    [apply assign_keeps|]; assumption.
Qed.

(** X12: starting from the empty map, whatever the unit, [fieldRanges]
    ends in strictly increasing key order, every entry is a field filed
    under its own qualified name, and that name is one of the configured
    ones. *)
Theorem recorded_fields_are_configured fields decls rewriter m rewriter' :
  collect fields decls ([], rewriter) = Some (m, rewriter') ->
  well_keyed m /\ Forall (fun e => configured fields (fst e) = true) m.
Proof.
  intros C. split.
  - apply (collect_well_keyed fields decls _ _ C). apply well_keyed_nil.
  - apply (collect_preserves fields
             (Forall (fun e => configured fields (fst e) = true))
             (collect_fields_configured fields) decls _ _ C).
    constructor.
Qed.

Lemma recorded_fields_are_configured_witness :
  well_keyed [("Foo::f", Example.f)] /\
  Forall (fun e => configured ["Foo::f"; "Bar::x"] (fst e) = true) [("Foo::f", Example.f)].
Proof.
  apply (recorded_fields_are_configured ["Foo::f"; "Bar::x"] Example.unit1 []
           [("Foo::f", Example.f)]
           [ReplaceText (mkRange 120 124) "obj.getF()";
            InsertTextBefore 129 "obj.setF( obj.getF() + 3 );
";
            ReplaceText (mkRange 138 147) "obj.getF()";
            ReplaceText (mkRange 153 165) "obj.setF( obj.g )";
            InsertTextBefore 170 "obj.setF( obj.getF() + 1);
";
            InsertTextAfter 204 ";
obj.setF( obj.getF() + 1)";
            InsertTextBefore 215 "{
";
            InsertTextBefore 215 "obj.setF( obj.getF() + 1);
";
            InsertTextAfter 215 "}
";
            ReplaceText (mkRange 239 247) "obj.setF( 5 )"]).
  reflexivity.
Defined.

Lemma assign_key_in key value m : In key (map fst (assign key value m)).
Proof.
  induction m as [|[k v] m IH]; simpl; [auto|].
  destruct (String.compare key k); simpl; auto.
Qed.

Lemma assign_keys_kept key value m k :
  In k (map fst m) -> In k (map fst (assign key value m)).
Proof.
  induction m as [|[k' v] m IH]; simpl; [tauto|].
  destruct (String.compare key k') eqn:C; simpl.
  - apply String.compare_eq_iff in C. subst. tauto.
  - tauto.
  - intros [H|H]; auto.
Qed.

Lemma collect_fields_keys_kept fields members m k :
  In k (map fst m) -> In k (map fst (collect_fields fields members m)).
Proof.
  unfold collect_fields. revert m.
  induction members as [|f members IH]; intros m H; simpl; [assumption|].
  apply IH. destruct (configured fields _); [apply assign_keys_kept|]; assumption.
Qed.

Lemma collect_fields_records fields members m f :
  In f members -> configured fields (getQualifiedNameAsString f) = true ->
  In (getQualifiedNameAsString f) (map fst (collect_fields fields members m)).
Proof.
  unfold collect_fields. revert m.
  induction members as [|a members IH]; intros m I C; simpl; [contradiction|].
  destruct I as [->|I].
  - rewrite C. apply (collect_fields_keys_kept fields members). apply assign_key_in.
  - apply IH; assumption.
Qed.

Lemma collect_keys_kept fields decls st st' k :
  collect fields decls st = Some st' ->
  In k (map fst (fst st)) -> In k (map fst (fst st')).
Proof.
  intros C. apply (collect_preserves fields (fun m => In k (map fst m))
                     (fun members m => collect_fields_keys_kept fields members m k)
                     decls st st' C).
Qed.

(** X13: the traversal never drops a name from [fieldRanges]: a key
    present before a run of declarations is present after it. *)
Theorem recorded_names_are_kept fields decls st st' k :
  collect fields decls st = Some st' ->
  In k (map fst (fst st)) -> In k (map fst (fst st')).
Proof.
  intros C K.
  apply (collect_preserves fields (fun m => In k (map fst m))
           (fun members m => collect_fields_keys_kept fields members m k)
           decls st st' C K).
Qed.

Lemma recorded_names_are_kept_witness :
  In "Outer::Inner::y"
    (map fst [("Foo::f", Example.f); ("Foo::g", Example.g);
              ("Outer::Inner::y", Example.y)]).
Proof.
  apply (recorded_names_are_kept ["Foo::f"; "Foo::g"] Example.unit1
           ([("Outer::Inner::y", Example.y)], [])
           ([("Foo::f", Example.f); ("Foo::g", Example.g);
             ("Outer::Inner::y", Example.y)],
            [ReplaceText (mkRange 120 124) "obj.getF()";
             InsertTextBefore 129 "obj.setF( obj.getF() + 3 );
";
             ReplaceText (mkRange 138 147) "obj.getF()";
             ReplaceText (mkRange 161 165) "obj.getG()";
             ReplaceText (mkRange 153 165) "obj.setF( obj.g )";
             InsertTextBefore 170 "obj.setF( obj.getF() + 1);
";
             InsertTextAfter 204 ";
obj.setF( obj.getF() + 1)";
             InsertTextBefore 215 "{
";
             InsertTextBefore 215 "obj.setF( obj.getF() + 1);
";
             InsertTextAfter 215 "}
";
             ReplaceText (mkRange 239 247) "obj.setF( 5 )"])
           "Outer::Inner::y").
  - reflexivity.
  - simpl; auto.
Defined.

(** X14: every configured field of every record the traversal reaches is
    recorded: when the traversal ends, its qualified name is a key of
    [fieldRanges]. *)
Theorem configured_fields_are_recorded fields :
  forall decls st st' f,
    collect fields decls st = Some st' ->
    In f (visited_fields decls) ->
    configured fields (getQualifiedNameAsString f) = true ->
    In (getQualifiedNameAsString f) (map fst (fst st')).
Proof.
  pose (P := fun d => forall st st' f,
    collect_subdecl fields d st = Some st' ->
    In f (visited_fields_subdecl d) ->
    configured fields (getQualifiedNameAsString f) = true ->
    In (getQualifiedNameAsString f) (map fst (fst st'))).
  assert (L : forall decls, Forall P decls ->
    forall st st' f,
      collect fields decls st = Some st' ->
      In f (visited_fields decls) ->
      configured fields (getQualifiedNameAsString f) = true ->
      In (getQualifiedNameAsString f) (map fst (fst st'))).
  { intros decls F. induction F as [|d ds Hd F IH]; simpl; intros st st' f H I C.
    - contradiction.
    - destruct (collect_subdecl fields d st) as [s1|] eqn:E; simpl in H; [|discriminate].
      apply in_app_or in I. destruct I as [I|I].
      + apply (collect_keys_kept fields ds s1 st' _ H). apply (Hd st s1 f E I C).
      + apply (IH s1 st' f H I C). }
  assert (S : forall d, P d).
  { induction d using Decl_nested_ind; unfold P; intros st st' f;
      rewrite collect_subdecl_eq, visited_fields_subdecl_eq.
    - intros Cl I C. apply in_app_or in I. destruct I as [I|I].
      + apply (collect_keys_kept fields decls _ st' _ Cl). simpl.
        apply collect_fields_records; assumption.
      + apply (L decls H _ st' f Cl I C).
    - destruct (name =? "main")%string; simpl; [|contradiction].
      destruct body as [b|]; simpl.
      + destruct (collect_stmt (fst st) b [] (snd st)) as [rw|]; simpl; [|discriminate].
        intros Cl I C. apply (L decls H _ st' f Cl I C).
      + intros Cl I C. apply (L decls H _ st' f Cl I C).
    - intros Cl I C. apply (L decls H _ st' f Cl I C).
    - intros _ []. }
  intros decls. apply L. apply Forall_forall. intros d _. apply S.
Qed.

Lemma configured_fields_are_recorded_witness :
  In "Outer::Inner::y" (map fst [("Outer::Inner::y", Example.y)]).
Proof.
  apply (configured_fields_are_recorded ["Outer::Inner::y"] Example.unit2
           ([], []) ([("Outer::Inner::y", Example.y)], []) Example.y).
  - reflexivity.
  - simpl; auto.
  - reflexivity.
Defined.

(** * Units without usages *)

Lemma collect_stmt_nothing_recorded stmt :
  forall parents rewriter, collect_stmt [] stmt parents rewriter = Some rewriter.
Proof.
  assert (M : forall s, mentions [] s = false).
  { induction s using Stmt_nested_ind; simpl; auto.
    - rewrite IHs1, IHs2. reflexivity.
    - induction H as [|[c|] cs Hc F IH]; simpl; auto. rewrite Hc. exact IH.
    - induction H as [|[c|] cs Hc F IH]; simpl; auto. rewrite Hc. exact IH.
    - induction H as [|[c|] cs Hc F IH]; simpl; auto. rewrite Hc. exact IH.
    - induction H as [|[c|] cs Hc F IH]; simpl; auto. rewrite Hc. exact IH. }
  intros parents rw. apply collect_stmt_unmentioned, M.
Qed.

Lemma collect_fields_nothing_configured members m :
  collect_fields [] members m = m.
Proof.
  unfold collect_fields. induction members as [|f members IH]; simpl; auto.
Qed.

Lemma collect_nothing_configured decls :
  forall rewriter, collect [] decls ([], rewriter) = Some ([], rewriter).
Proof.
  assert (L : forall decls,
    Forall (fun d => forall rw, collect_subdecl [] d ([], rw) = Some ([], rw)) decls ->
    forall rw, collect [] decls ([], rw) = Some ([], rw)).
  { intros ds F. induction F as [|d ds Hd F IH]; simpl; intros rw; [reflexivity|].
    rewrite Hd. simpl. apply IH. }
  assert (S : forall d rw, collect_subdecl [] d ([], rw) = Some ([], rw)).
  { induction d using Decl_nested_ind; intros rw; rewrite collect_subdecl_eq.
    - simpl fst; simpl snd. rewrite collect_fields_nothing_configured. apply L; assumption.
    - destruct (negb (name =? "main")); [reflexivity|].
      destruct body as [b|]; simpl.
      + rewrite collect_stmt_nothing_recorded. simpl. apply L; assumption.
      + apply L; assumption.
    - apply L; assumption.
    - reflexivity. }
  apply L. apply Forall_forall. intros d _. apply S.
Qed.

(** X15: with nothing configured the transform succeeds on every unit,
    records no field and queues no edit, whatever the bodies hold. *)
Theorem empty_configuration_changes_nothing tu :
  HandleTranslationUnit [] tu = Some ([], []).
Proof.
  unfold HandleTranslationUnit. rewrite collect_nothing_configured. reflexivity.
Qed.

(** X16: in a unit where the traversal reaches no function named [main],
    the traversal cannot fail and queues no usage edit; all the transform
    queues is what [replace] queues for the recorded fields. *)
Theorem unit_without_main_gets_accessors_only fields tu :
  forallb without_main tu = true ->
  exists m,
    collect fields tu ([], []) = Some (m, []) /\
    HandleTranslationUnit fields tu = (rewriter <- replace m [] ;; Some (m, rewriter)).
Proof.
  intros W. destruct (without_main_decls fields tu W) as [_ C].
  destruct (C ([], [])) as [m Hm]. exists m. split; [exact Hm|].
  unfold HandleTranslationUnit. rewrite Hm. reflexivity.
Qed.

Lemma unit_without_main_gets_accessors_only_witness :
  exists m,
    collect ["Foo::g"]
      [RecordD [Example.f; Example.g] []; FunctionD "helper" (Some Example.helper_body) []]
      ([], []) = Some (m, []) /\
    HandleTranslationUnit ["Foo::g"]
      [RecordD [Example.f; Example.g] []; FunctionD "helper" (Some Example.helper_body) []] =
    (rewriter <- replace m [] ;; Some (m, rewriter)).
Proof.
  apply (unit_without_main_gets_accessors_only ["Foo::g"]
           [RecordD [Example.f; Example.g] [];
            FunctionD "helper" (Some Example.helper_body) []]).
  reflexivity.
Defined.

(** * Placing the accessors, in full *)

(** X17: the block of a field can be placed exactly when its record has
    no user-provided method or its last method is user-provided; in every
    other case the loop reads through [method_end()]. *)
Theorem accessors_placed_iff_placeable field rewriter :
  replace_field field rewriter = None <-> placeable (getParent field) = false.
Proof.
  split.
  - intros N. destruct (placeable (getParent field)) eqn:P; [|reflexivity].
    destruct (replace_field_placeable field rewriter P) as (e & E & _). congruence.
  - unfold placeable, replace_field. intros P.
    apply orb_false_iff in P. destruct P as [U L].
    apply negb_false_iff in U. rewrite U. cbn [negb].
    destruct (rev (methods (getParent field))) as [|last r] eqn:Rv.
    + assert (M : methods (getParent field) = []).
      { rewrite <- (rev_involutive (methods (getParent field))), Rv. reflexivity. }
      rewrite M in U. discriminate.
    + assert (M : methods (getParent field) = (rev r ++ [last])%list).
      { rewrite <- (rev_involutive (methods (getParent field))), Rv. reflexivity. }
      rewrite M, last_method_loop_overruns by assumption. reflexivity.
Qed.

(** X19: when the last method of the record is user-provided, the block
    is inserted after the token at the end of that method, whatever
    methods, user-provided or not, come before it. *)
Theorem accessors_go_after_last_method field before last rewriter :
  methods (getParent field) = (before ++ [last])%list ->
  isUserProvided last = true ->
  replace_field field rewriter =
  Some (rewriter ++
        [InsertTextAfterToken (getEnd (getSourceRange last)) (accessors field)])%list.
Proof.
  intros M U. unfold replace_field. rewrite M.
  rewrite existsb_app. simpl existsb. rewrite U, orb_true_r. cbn [negb].
  rewrite last_method_loop_ends by assumption. reflexivity.
Qed.

Lemma accessors_go_after_last_method_witness :
  replace_field
    (mkField 4 "n" "Counter::n" "int" "const int"
       (mkRecord 52 [mkMethod false (mkRange 7 7); mkMethod true (mkRange 28 50)])) [] =
  Some ([] ++
        [InsertTextAfterToken 50
           (accessors
              (mkField 4 "n" "Counter::n" "int" "const int"
                 (mkRecord 52 [mkMethod false (mkRange 7 7);
                               mkMethod true (mkRange 28 50)])))])%list.
Proof.
  apply (accessors_go_after_last_method
           (mkField 4 "n" "Counter::n" "int" "const int"
              (mkRecord 52 [mkMethod false (mkRange 7 7); mkMethod true (mkRange 28 50)]))
           [mkMethod false (mkRange 7 7)] (mkMethod true (mkRange 28 50)) []);
    reflexivity.
Defined.

Lemma replace_shape m :
  forall rewriter rewriter',
    replace m rewriter = Some rewriter' ->
    exists new,
      rewriter' = (rewriter ++ new)%list /\
      length new = length m /\
      Forall (fun e => forall range text, e <> ReplaceText range text) new.
Proof.
  induction m as [|[k field] m IH]; simpl; intros rw rw' H.
  - inversion H; subst. exists []. rewrite app_nil_r. repeat split. constructor.
  - destruct (replace_field field rw) as [r|] eqn:E; simpl in H; [|discriminate].
    destruct (IH r rw' H) as (new & -> & Len & F).
    assert (exists e, r = (rw ++ [e])%list /\
                      forall range text, e <> ReplaceText range text) as (e & -> & Ne).
    { unfold replace_field in E.
      destruct (negb (existsb isUserProvided (methods (getParent field)))).
      - inversion E; subst. eexists; split; [reflexivity|]. discriminate.
      - destruct (last_method_loop (methods (getParent field)) 0); simpl in E;
          [|discriminate].
        inversion E; subst. eexists; split; [reflexivity|]. discriminate. }
    exists (e :: new). rewrite <- app_assoc. repeat split; simpl; auto.
Qed.

(** X20: a run of the transform that succeeds queues the usage edits of
    the traversal first and then one insertion for each recorded field;
    [replace] changes neither [fieldRanges] nor the edits queued before
    it, and it replaces no range. *)
Theorem accessors_follow_usage_edits fields tu m rewriter :
  HandleTranslationUnit fields tu = Some (m, rewriter) ->
  exists usages accessor_edits,
    collect fields tu ([], []) = Some (m, usages) /\
    rewriter = (usages ++ accessor_edits)%list /\
    length accessor_edits = length m /\
    Forall (fun e => forall range text, e <> ReplaceText range text) accessor_edits.
Proof.
  unfold HandleTranslationUnit. intros H.
  destruct (collect fields tu ([], [])) as [[m0 usages]|]; simpl in H; [|discriminate].
  destruct (replace m0 usages) as [r|] eqn:R; simpl in H; [|discriminate].
  inversion H; subst.
  destruct (replace_shape _ _ _ R) as (new & -> & Len & F).
  exists usages, new. auto.
Qed.

Lemma accessors_follow_usage_edits_witness :
  exists usages accessor_edits,
    collect ["Outer::Inner::y"] Example.unit2 ([], []) =
      Some ([("Outer::Inner::y", Example.y)], usages) /\
    [InsertTextBefore 75 (accessors Example.y)] = (usages ++ accessor_edits)%list /\
    length accessor_edits = length [("Outer::Inner::y", Example.y)] /\
    Forall (fun e => forall range text, e <> ReplaceText range text) accessor_edits.
Proof.
  apply (accessors_follow_usage_edits ["Outer::Inner::y"] Example.unit2
           [("Outer::Inner::y", Example.y)] [InsertTextBefore 75 (accessors Example.y)]).
  reflexivity.
Defined.

(** * Where the rules miss the claims *)

(** C3 on [while ((obj.f += 3) < 10) ;] of the fourth unit.  The walk
    from the assignment stops at the condition [(obj.f += 3) < 10], an
    expression at 80 whose parent is the [while] statement at 73..99.  The
    setter statement is queued at 80, inside the header of the [while],
    not before the statement; the assignment at 81..90 is replaced by the
    getter call. *)
Theorem compound_assignment_inserted_inside_while :
  top_stmt_within_compound Example.while_assign
    [Example.while_paren; Example.while_cast; Example.while_cond;
     Example.while_stmt; Example.body4] =
    Some (Example.while_cond, [Example.while_stmt; Example.body4]) /\
  isa_Expr Example.while_cond = true /\
  getSourceRangeOf Example.while_stmt = mkRange 73 99 /\
  collect_stmt Example.targets_fg Example.while_assign
    [Example.while_paren; Example.while_cast; Example.while_cond;
     Example.while_stmt; Example.body4] [] =
  Some [InsertTextBefore 80 "obj.setF( obj.getF() + 3 );
";
        ReplaceText (mkRange 81 90) "obj.getF()"].
Proof. repeat split. Qed.

(** C5 on [c = obj.f++;] of the fourth unit and on [int a = ++obj.f;] of
    the first.  For the postfix operator the walk stops at the assignment
    [c = obj.f++], from 103 to its last token [++] at 112; the setter call
    is queued at 112, in front of that token and inside the statement, not
    after it.  In both cases the insertion is the only edit: the operator
    expression, at 107..112 and at 178..184, is not replaced and still
    increments the field after the inserted call has done so. *)
Theorem increment_left_in_place :
  top_stmt_within_compound Example.c_post_inc [Example.c_assign; Example.body4] =
    Some (Example.c_assign, [Example.body4]) /\
  getSourceRangeOf Example.c_assign = mkRange 103 112 /\
  getSourceRangeOf Example.c_post_inc = mkRange 107 112 /\
  collect_stmt Example.targets_fg Example.c_post_inc
    [Example.c_assign; Example.body4] [] =
    Some [InsertTextAfter 112 ";
obj.setF( obj.getF() + 1)"] /\
  getSourceRangeOf Example.pre_inc = mkRange 178 184 /\
  collect_stmt Example.targets_fg Example.pre_inc
    [Example.cast_a; Example.decl_a; Example.main_body] [] =
    Some [InsertTextBefore 170 "obj.setF( obj.getF() + 1);
"].
Proof. repeat split. Qed.

(** C9 on the third unit: [Counter::n] is recorded, but whatever is
    queued already, [replace] reads through [method_end()] of [Counter]
    before it queues anything for the field: [Counter] gets no getter and
    no setter. *)
Theorem no_accessor_for_recorded_field :
  is_target [("Counter::n", Example.n)] Example.n /\
  (forall rewriter, replace_field Example.n rewriter = None) /\
  (forall rewriter, replace [("Counter::n", Example.n)] rewriter = None).
Proof.
  split; [unfold is_target; simpl; auto|].
  split; intros rewriter; reflexivity.
Qed.

(** * The names of the accessors *)

Lemma update_at_3_get prefix3 f name :
  String.length prefix3 = 3 ->
  update_at 3 f (prefix3 ++ name) = prefix3 ++ update_at 0 f name.
Proof.
  destruct prefix3 as [|a [|b [|c [|x r]]]]; simpl; try discriminate.
  intros _. destruct name; reflexivity.
Qed.

(** X23: the block [replace] writes for a field declares the two getters
    and the setter under the very names the rewritten usages call:
    [getterName] and [setterName], which [rewrite] derives on its own. *)
Theorem accessor_block_declares_called_names field :
  accessors field =
  constTypeAsString field ++ " &" ++ getterName field ++
  "() const { return " ++ getNameAsString field ++ "; };
" ++
  typeAsString field ++ " &" ++ getterName field ++
  "()  { return " ++ getNameAsString field ++ "; };
" ++
  "void " ++ setterName field ++
  "(" ++ constTypeAsString field ++ "& _" ++ getNameAsString field ++
  ") { " ++ getNameAsString field ++ " = _" ++ getNameAsString field ++ "; };
".
Proof.
  unfold accessors, getterName, setterName.
  rewrite !update_at_3_get by reflexivity.
  rewrite !append_assoc. reflexivity.
Qed.

(** X24: for a field whose name begins with a lower-case letter of ASCII,
    the getter and the setter are called [get] and [set] followed by the
    name with that letter replaced by its capital, 32 codes below; the
    rest of the name is kept. *)
Theorem accessor_names_capitalise_first_letter d c rest :
  getNameAsString d = String c rest ->
  (97 <= nat_of_ascii c <= 122)%nat ->
  getterName d = "get" ++ String (ascii_of_nat (nat_of_ascii c - 32)) rest /\
  setterName d = "set" ++ String (ascii_of_nat (nat_of_ascii c - 32)) rest.
Proof.
  intros N [Lo Hi]. unfold getterName, setterName. rewrite N.
  rewrite !update_at_3_get by reflexivity.
  cbn [update_at]. unfold toupper.
  apply Nat.leb_le in Lo. apply Nat.leb_le in Hi. rewrite Lo, Hi.
  split; reflexivity.
Qed.

Lemma accessor_names_capitalise_first_letter_witness :
  getterName Example.f = "getF" /\ setterName Example.f = "setF".
Proof.
  apply (accessor_names_capitalise_first_letter Example.f "f"%char "").
  - reflexivity.
  - split; apply Nat.leb_le; reflexivity.
Defined.
